(** * Mortgage prepayment calculator: a shallow embedding of
      [client/src/lib/mortgageCalculator.ts]

    The TypeScript module is a pure calculation over JavaScript numbers.  It
    is translated once, over an abstract arithmetic signature [Number]
    listing exactly the operations the module applies to numbers.  Two
    instances are given:

    - [exact]: the rationals [Q], the arithmetic in which the amortisation
      formulas are meant; all algebraic statements are proved here;
    - [Binary64.number]: IEEE 754 double precision (what a JavaScript engine
      executes), used to evaluate the code on concrete inputs; [Binary64.js]
      is that instance with [Math.pow] computed by repeated multiplication.

    The spec's caller preconditions ask for an integer number of periods
    [>= 1].  Period counts, loop counters and the results of [Math.ceil] are
    therefore carried as [Z] and injected into the arithmetic with [of_Z]
    where the code divides by them.  A fractional count (which [parseFloat]
    can put into the form), a NaN count (no iteration) and an infinite count
    (the loop never ends) have no counterpart here: every statement below is
    about integer period counts, and the double-precision instance is only
    evaluated on inputs where each argument of [Math.ceil] is finite.  The
    theorems stated for every arithmetic hold whatever [Math.pow] returns
    and are about paths that do not call [Math.ceil].

    Division in [Q] is total ([x / 0 = 0]) where a double gives an infinity
    or NaN; the statements proved in exact arithmetic keep every divisor
    away from zero through their hypotheses (a positive principal, at least
    one period, a non-negative rate, a positive target payment).

    The form's handlers [handleCalculate] and [handleClearForm] and the
    conditions and derived amounts of the result panel [ResultDisplay] are
    embedded after the module.  The formatters ([Intl.NumberFormat],
    [toFixed]) and [handleInputChange] ([parseFloat]) depend on the runtime
    library and are not embedded. *)

From Stdlib Require Import ZArith QArith Qround Qminmax Qpower Qfield Lqa Lia List Bool.
From Stdlib Require PrimFloat FloatOps SpecFloat.
From Equations Require Import Equations.
Import ListNotations.

Set Implicit Arguments.

(** ** The arithmetic signature *)

Class Number (num : Type) : Type := {
  of_Z : Z -> num;               (* an integer-valued number *)
  add : num -> num -> num;       (* a + b *)
  sub : num -> num -> num;       (* a - b *)
  mul : num -> num -> num;       (* a * b *)
  div : num -> num -> num;       (* a / b *)
  pow : num -> Z -> num;         (* Math.pow(a, n), n integer-valued *)
  max : num -> num -> num;       (* Math.max(a, b) *)
  ceil : num -> Z;               (* Math.ceil(a) *)
  eqb : num -> num -> bool;      (* a === b *)
  leb : num -> num -> bool;      (* a <= b *)
  ltb : num -> num -> bool       (* a < b *)
}.

Declare Scope js_scope.
Delimit Scope js_scope with js.
Infix "+" := add : js_scope.
Infix "-" := sub : js_scope.
Infix "*" := mul : js_scope.
Infix "/" := div : js_scope.
Infix "===" := eqb (at level 70, no associativity) : js_scope.
Infix "<=?" := leb : js_scope.
Infix "<?" := ltb : js_scope.

(** ** Data model *)

Inductive RepaymentMethod : Set :=
| equal_principal_interest
| equal_principal.

Inductive PrepaymentType : Set :=
| reduce_payment
| reduce_period.

Record MortgageInput (num : Type) : Type := {
  totalLoan : num;
  remainingPeriods : Z;
  annualRate : num;
  prepaymentAmount : num;
  repaymentMethod : RepaymentMethod;
  prepaymentType : PrepaymentType
}.

Record PaymentSchedule (num : Type) : Type := {
  period : Z;
  payment : num;
  principal : num;
  interest : num;
  balance : num
}.

Arguments period {num} _.
Arguments payment {num} _.
Arguments principal {num} _.
Arguments interest {num} _.
Arguments balance {num} _.

Record CalculationResult (num : Type) : Type := {
  originalMonthlyPayment : num;
  totalInterestOriginal : num;
  newMonthlyPayment : num;
  totalInterestNew : num;
  interestSavings : num;
  periodReduction : Z;
  newRemainingPeriods : Z;
  schedule : list (PaymentSchedule num)
}.

(** ** The calculation module *)

Section Calculator.

Context {num : Type} `{Number num}.
Local Open Scope js_scope.

Definition getMonthlyRate (annualRate : num) : num :=
  annualRate / of_Z 100 / of_Z 12.

Definition calculateEqualPayment (principal monthlyRate : num) (periods : Z) : num :=
  if monthlyRate === of_Z 0 then principal / of_Z periods
  else
    let numerator := monthlyRate * pow (of_Z 1 + monthlyRate) periods in
    let denominator := pow (of_Z 1 + monthlyRate) periods - of_Z 1 in
    (principal * numerator) / denominator.

(** The state of either schedule loop: the running [balance] and the
    [schedule] array built so far ([push] appends at the end). *)
Definition loopState : Type := (num * list (PaymentSchedule num))%type.

(** [for (let i = first; i <= periods; i++) body], unrolled [count] times. *)
Fixpoint forLoop (count : nat) (i : Z) (body : Z -> loopState -> loopState)
         (st : loopState) : loopState :=
  match count with
  | O => st
  | S count' => forLoop count' (i + 1)%Z body (body i st)
  end.

Definition equalPaymentBody (monthlyPayment monthlyRate : num)
           (i : Z) (st : loopState) : loopState :=
  let '(balance, schedule) := st in
  let interest := balance * monthlyRate in
  let principalPayment := monthlyPayment - interest in
  let balance := balance - principalPayment in
  (balance,
   schedule ++ [ {| period := i;
                    payment := monthlyPayment;
                    principal := principalPayment;
                    interest := interest;
                    balance := max (of_Z 0) balance |} ]).

Definition generateEqualPaymentSchedule (principal monthlyRate : num) (periods : Z)
  : list (PaymentSchedule num) :=
  let monthlyPayment := calculateEqualPayment principal monthlyRate periods in
  snd (forLoop (Z.to_nat periods) 1%Z
               (equalPaymentBody monthlyPayment monthlyRate) (principal, [])).

Definition equalPrincipalBody (principalPayment monthlyRate : num)
           (i : Z) (st : loopState) : loopState :=
  let '(balance, schedule) := st in
  let interest := balance * monthlyRate in
  let payment := principalPayment + interest in
  let balance := balance - principalPayment in
  (balance,
   schedule ++ [ {| period := i;
                    payment := payment;
                    principal := principalPayment;
                    interest := interest;
                    balance := max (of_Z 0) balance |} ]).

Definition generateEqualPrincipalSchedule (principal monthlyRate : num) (periods : Z)
  : list (PaymentSchedule num) :=
  let principalPayment := principal / of_Z periods in
  snd (forLoop (Z.to_nat periods) 1%Z
               (equalPrincipalBody principalPayment monthlyRate) (principal, [])).

Definition calculateTotalInterest (schedule : list (PaymentSchedule num)) : num :=
  fold_left (fun sum item => sum + interest item) schedule (of_Z 0).

(** The [while (low <= high)] loop of [calculateNewPeriods]; it terminates
    because the interval [low..high] shrinks at every iteration. *)
Equations? bisect (principal monthlyRate monthlyPayment : num) (low high result : Z)
  : Z by wf (Z.to_nat (high - low + 1)) lt :=
  bisect principal monthlyRate monthlyPayment low high result
    with Z_le_gt_dec low high => {
    | left _ =>
        let mid := ((low + high) / 2)%Z in
        let testPayment := calculateEqualPayment principal monthlyRate mid in
        if testPayment <=? monthlyPayment
        then bisect principal monthlyRate monthlyPayment low (mid - 1)%Z mid
        else bisect principal monthlyRate monthlyPayment (mid + 1)%Z high result
    | right _ => result }.
Proof.
  - pose proof (Z.div_le_upper_bound (low + high) 2 high); lia.
  - pose proof (Z.div_le_lower_bound (low + high) 2 low); lia.
Qed.

Definition calculateNewPeriods (principal monthlyRate monthlyPayment : num) : Z :=
  if monthlyRate === of_Z 0 then ceil (principal / monthlyPayment)
  else bisect principal monthlyRate monthlyPayment 1 1000 1000.

(** The conditional expression
    [repaymentMethod === "equal_principal_interest" ? generateEqualPaymentSchedule(..)
                                                  : generateEqualPrincipalSchedule(..)]
    that [calculateMortgage] writes out at each of its three call sites. *)
Definition generateSchedule (method : RepaymentMethod)
           (principal monthlyRate : num) (periods : Z) : list (PaymentSchedule num) :=
  match method with
  | equal_principal_interest => generateEqualPaymentSchedule principal monthlyRate periods
  | equal_principal => generateEqualPrincipalSchedule principal monthlyRate periods
  end.

(** [calculateMortgage].  Reading [.payment] of the first element of an empty
    array ([originalSchedule[0]], [newSchedule[0]]) throws a [TypeError]; that
    is the [None] result.  The four variables the strategies assign,
    [newSchedule], [newMonthlyPayment], [newRemainingPeriods] and
    [periodReduction], are carried as a tuple to the common return. *)
Definition calculateMortgage (input : MortgageInput num)
  : option (CalculationResult num) :=
  let monthlyRate := getMonthlyRate (annualRate input) in
  let originalSchedule :=
    generateSchedule (repaymentMethod input)
                     (totalLoan input) monthlyRate (remainingPeriods input) in
  match originalSchedule with
  | [] => None
  | first :: _ =>
      let originalMonthlyPayment := payment first in
      let totalInterestOriginal := calculateTotalInterest originalSchedule in
      let remainingPrincipal := totalLoan input - prepaymentAmount input in
      if remainingPrincipal <=? of_Z 0 then
        Some {| originalMonthlyPayment := originalMonthlyPayment;
                totalInterestOriginal := totalInterestOriginal;
                newMonthlyPayment := of_Z 0;
                totalInterestNew := of_Z 0;
                interestSavings := totalInterestOriginal;
                periodReduction := remainingPeriods input;
                newRemainingPeriods := 0;
                schedule := [] |}
      else
        let assigned :=
          match prepaymentType input with
          | reduce_payment =>
              let newRemainingPeriods := remainingPeriods input in
              let periodReduction := 0%Z in
              let newSchedule :=
                generateSchedule (repaymentMethod input)
                                 remainingPrincipal monthlyRate newRemainingPeriods in
              match newSchedule with
              | [] => None
              | newFirst :: _ =>
                  let newMonthlyPayment := payment newFirst in
                  Some (newSchedule, newMonthlyPayment, newRemainingPeriods, periodReduction)
              end
          | reduce_period =>
              let newMonthlyPayment := originalMonthlyPayment in
              let newRemainingPeriods :=
                match repaymentMethod input with
                | equal_principal_interest =>
                    calculateNewPeriods remainingPrincipal monthlyRate newMonthlyPayment
                | equal_principal =>
                    let originalPrincipalPayment :=
                      totalLoan input / of_Z (remainingPeriods input) in
                    ceil (remainingPrincipal / originalPrincipalPayment)
                end in
              let periodReduction := (remainingPeriods input - newRemainingPeriods)%Z in
              let newSchedule :=
                generateSchedule (repaymentMethod input)
                                 remainingPrincipal monthlyRate newRemainingPeriods in
              Some (newSchedule, newMonthlyPayment, newRemainingPeriods, periodReduction)
          end in
        match assigned with
        | None => None
        | Some (newSchedule, newMonthlyPayment, newRemainingPeriods, periodReduction) =>
            let totalInterestNew := calculateTotalInterest newSchedule in
            Some {| originalMonthlyPayment := originalMonthlyPayment;
                    totalInterestOriginal := totalInterestOriginal;
                    newMonthlyPayment := newMonthlyPayment;
                    totalInterestNew := totalInterestNew;
                    interestSavings := totalInterestOriginal - totalInterestNew;
                    periodReduction := periodReduction;
                    newRemainingPeriods := newRemainingPeriods;
                    schedule := newSchedule |}
        end
  end.

(** The guard of the form's [handleCalculate]: it alerts and returns on
    [totalLoan <= 0 || remainingPeriods <= 0 || annualRate < 0 || prepaymentAmount < 0]
    and on [prepaymentAmount >= totalLoan] (the comparison
    [totalLoan <= prepaymentAmount]); otherwise it calls [calculateMortgage].
    The guard does not test that the period count is an integer; here the
    count is one by its type. *)
Definition handleCalculateAccepts (formData : MortgageInput num) : bool :=
  negb ((totalLoan formData <=? of_Z 0)
        || (remainingPeriods formData <=? 0)%Z
        || (annualRate formData <? of_Z 0)
        || (prepaymentAmount formData <? of_Z 0))
  && negb (totalLoan formData <=? prepaymentAmount formData).

(** *** One iteration of each loop, split into the balance it leaves and the
    entry it pushes; [forLoop_unroll] below relates the loops to them. *)

Definition equalPaymentNext (monthlyPayment monthlyRate balance : num) : num :=
  balance - (monthlyPayment - balance * monthlyRate).

Definition equalPaymentEntry (monthlyPayment monthlyRate : num) (i : Z) (balance : num)
  : PaymentSchedule num :=
  {| period := i;
     payment := monthlyPayment;
     principal := monthlyPayment - balance * monthlyRate;
     interest := balance * monthlyRate;
     balance := max (of_Z 0) (equalPaymentNext monthlyPayment monthlyRate balance) |}.

Definition equalPrincipalNext (principalPayment balance : num) : num :=
  balance - principalPayment.

Definition equalPrincipalEntry (principalPayment monthlyRate : num) (i : Z) (balance : num)
  : PaymentSchedule num :=
  {| period := i;
     payment := principalPayment + balance * monthlyRate;
     principal := principalPayment;
     interest := balance * monthlyRate;
     balance := max (of_Z 0) (equalPrincipalNext principalPayment balance) |}.

(** The schedule a loop builds when it starts from [balance0] and runs
    [count] times: entry [k] is pushed from the balance left by the first
    [k] iterations. *)
Definition unrolled (next : num -> num) (entry : Z -> num -> PaymentSchedule num)
           (count : nat) (i : Z) (balance0 : num) : list (PaymentSchedule num) :=
  map (fun k => entry (i + Z.of_nat k)%Z (Nat.iter k next balance0)) (seq 0 count).

(** The payment of period 1 of either schedule. *)
Definition firstPayment (method : RepaymentMethod)
           (principal monthlyRate : num) (periods : Z) : num :=
  match method with
  | equal_principal_interest => calculateEqualPayment principal monthlyRate periods
  | equal_principal => principal / of_Z periods + principal * monthlyRate
  end.

(** Sum of the principal components of a schedule, accumulated the way
    [calculateTotalInterest] accumulates the interest components. *)
Definition totalPrincipal (schedule : list (PaymentSchedule num)) : num :=
  fold_left (fun sum item => sum + principal item) schedule (of_Z 0).

End Calculator.

(** ** Exact arithmetic *)

#[export] Instance exact : Number Q := {
  of_Z := inject_Z;
  add := Qplus;
  sub := Qminus;
  mul := Qmult;
  div := Qdiv;
  pow := Qpower;
  max := Qmax;
  ceil := Qceiling;
  eqb := Qeq_bool;
  leb := Qle_bool;
  ltb := fun a b => negb (Qle_bool b a)
}.

(** ** Double precision *)

Module Binary64.

Import PrimFloat.

Definition of_Z (z : Z) : float :=
  FloatOps.SF2Prim (SpecFloat.binary_normalize FloatOps.prec FloatOps.emax z 0 false).

(** [Math.max]: NaN if either argument is NaN, and [+0] is larger than [-0]. *)
Definition max (a b : float) : float :=
  if is_nan a || is_nan b then nan
  else if ltb a b then b
  else if ltb b a then a
  else if get_sign a then b else a.

(** [Math.ceil] of a finite double, as an integer.  NaN and the infinities
    have no integer value (in the program a NaN count runs no iteration and
    an infinite one never lets the loop end); the placeholder 0 stands for
    them, and every evaluation below passes finite arguments only. *)
Definition ceil (x : float) : Z :=
  match FloatOps.Prim2SF x with
  | SpecFloat.S754_finite s m e =>
      let z := if s then Zneg m else Zpos m in
      match e with
      | Zneg k => (- ((- z) / Zpos (2 ^ k)))%Z
      | _ => (z * 2 ^ e)%Z
      end
  | _ => 0%Z
  end.

(** [Math.pow] is implementation-approximated in ECMAScript, so it stays a
    parameter of the instance. *)
Definition number (js_pow : float -> Z -> float) : Number float :=
  Build_Number of_Z PrimFloat.add PrimFloat.sub PrimFloat.mul PrimFloat.div
               js_pow max ceil PrimFloat.eqb PrimFloat.leb PrimFloat.ltb.

(** [Math.pow] at an integer exponent, by repeated multiplication.  It is
    the value every implementation of [Math.pow] gives where the repeated
    product is exact or exceeds the largest double ([+Infinity]); elsewhere
    implementations may differ in the last place, and no statement below
    depends on such a value. *)
Definition pow (x : float) (n : Z) : float :=
  match n with
  | Z0 => one
  | Zpos p => Pos.iter (PrimFloat.mul x) one p
  | Zneg p => PrimFloat.div one (Pos.iter (PrimFloat.mul x) one p)
  end.

Definition js : Number float := number pow.

End Binary64.


(** ** Vocabulary of the statements *)

(** Consecutive entries of a schedule compared on one field. *)
Definition consecutive (R : Q -> Q -> Prop) (field : PaymentSchedule Q -> Q)
           (schedule : list (PaymentSchedule Q)) : Prop :=
  forall k e1 e2,
    nth_error schedule k = Some e1 ->
    nth_error schedule (S k) = Some e2 ->
    R (field e1) (field e2).

Definition nonIncreasing := consecutive (fun a b => b <= a)%Q.
Definition strictlyDecreasing := consecutive (fun a b => b < a)%Q.

(** A running balance [B 0, B 1, ..] that goes strictly down to zero in
    [n] steps. *)
Definition amortises (B : nat -> Q) (n : nat) : Prop :=
  (forall k, (k < n)%nat -> B (S k) < B k) /\ B n == 0.

(** ** The form and the result panel *)

(** The state of the [Home] component: the form's [formData], the last
    [result] ([null] is [None]) and the flag [hasCalculated]. *)
Record HomeState (num : Type) : Type := {
  formData : MortgageInput num;
  result : option (CalculationResult num);
  hasCalculated : bool
}.

(** The two messages [handleCalculate] alerts:
    "请输入有效的数值" and "提前还款金额不能大于等于贷款总额". *)
Inductive Alert : Set :=
| invalidValues
| prepaymentTooLarge.

Section Presentation.

Context {num : Type} `{Number num}.
Local Open Scope js_scope.

(** [handleCalculate] on a form holding an integer period count: the new
    state and the alert shown, if any.  A [TypeError] escaping from
    [calculateMortgage] is the [None] result. *)
Definition handleCalculate (st : HomeState num)
  : option (HomeState num * option Alert) :=
  let fd := formData st in
  if (totalLoan fd <=? of_Z 0)
     || (remainingPeriods fd <=? 0)%Z
     || (annualRate fd <? of_Z 0)
     || (prepaymentAmount fd <? of_Z 0)
  then Some (st, Some invalidValues)
  else if totalLoan fd <=? prepaymentAmount fd
  then Some (st, Some prepaymentTooLarge)
  else
    match calculateMortgage fd with
    | None => None
    | Some calculationResult =>
        Some ({| formData := fd;
                 result := Some calculationResult;
                 hasCalculated := true |}, None)
    end.

Definition handleClearForm (st : HomeState num) : HomeState num :=
  {| formData := {| totalLoan := of_Z 0;
                    remainingPeriods := 0;
                    annualRate := of_Z 0;
                    prepaymentAmount := of_Z 0;
                    repaymentMethod := equal_principal_interest;
                    prepaymentType := reduce_payment |};
     result := None;
     hasCalculated := false |}.

(** [Home] renders [ResultDisplay] on [hasCalculated && result], with that
    result; otherwise it renders the placeholder card. *)
Definition resultDisplayed (st : HomeState num) : option (CalculationResult num) :=
  if hasCalculated st then result st else None.

(** [ResultDisplay]: the card "期数变化" is rendered on
    [formData.prepaymentType === "reduce_period" && result.periodReduction > 0]. *)
Definition periodChangeShown (fd : MortgageInput num) (res : CalculationResult num)
  : bool :=
  match prepaymentType fd with
  | reduce_period => (periodReduction res >? 0)%Z
  | reduce_payment => false
  end.

(** [ResultDisplay]: the notice "提前还款金额已覆盖全部贷款" is rendered on
    [result.schedule.length === 0]. *)
Definition paidOffNoticeShown (res : CalculationResult num) : bool :=
  (length (schedule res) =? 0)%nat.

(** [ResultDisplay]: the amount after "降低",
    [result.originalMonthlyPayment - result.newMonthlyPayment]. *)
Definition paymentReduction (res : CalculationResult num) : num :=
  originalMonthlyPayment res - newMonthlyPayment res.

(** [ResultDisplay]: the number after "节省比例" before [toFixed(2)],
    [(result.interestSavings / result.totalInterestOriginal) * 100]. *)
Definition savingsRatio (res : CalculationResult num) : num :=
  (interestSavings res / totalInterestOriginal res) * of_Z 100.

(** Sum of the payments of a schedule, accumulated the way
    [calculateTotalInterest] accumulates the interest components. *)
Definition totalPayment (schedule : list (PaymentSchedule num)) : num :=
  fold_left (fun sum item => sum + payment item) schedule (of_Z 0).

End Presentation.

(** A form to instantiate statements with: 1200 over 12 months at 12% a
    year, 600 prepaid. *)
Definition sampleForm (method : RepaymentMethod) (strategy : PrepaymentType)
  : MortgageInput Q :=
  {| totalLoan := 1200%Q; remainingPeriods := 12; annualRate := 12%Q;
     prepaymentAmount := 600%Q; repaymentMethod := method;
     prepaymentType := strategy |}.


Definition largeLoanForm (method : RepaymentMethod) : MortgageInput PrimFloat.float :=
  {| totalLoan := Binary64.of_Z (10 ^ 17); remainingPeriods := 2;
     annualRate := Binary64.of_Z 0; prepaymentAmount := Binary64.of_Z 1;
     repaymentMethod := method; prepaymentType := reduce_payment |}.

Definition halvedLoanForm (num : Type) (N : Number num) : MortgageInput num :=
  {| totalLoan := of_Z 100000; remainingPeriods := 84;
     annualRate := of_Z 4; prepaymentAmount := of_Z 50000;
     repaymentMethod := equal_principal; prepaymentType := reduce_period |}.

(** The caller preconditions of the spec on an input with an integer number
    of periods, in exact arithmetic. *)
Definition callerPreconditions (input : MortgageInput Q) : Prop :=
  (0 < totalLoan input)%Q
  /\ (1 <= remainingPeriods input)%Z
  /\ (0 <= annualRate input)%Q
  /\ (0 <= prepaymentAmount input)%Q
  /\ (prepaymentAmount input < totalLoan input)%Q.

(** Consecutive entries compared upwards. *)
Definition nonDecreasing := consecutive (fun a b => a <= b)%Q.
Definition strictlyIncreasing := consecutive (fun a b => a < b)%Q.

(** * Properties *)

(** The caller preconditions at a concrete input, by evaluation. *)
Ltac sample_preconditions :=
  unfold callerPreconditions; cbn;
  repeat split; (reflexivity || discriminate || lia).

(** Fold the operations of the [exact] instance back to those of [Q]. *)
Ltac to_Q :=
  cbn [of_Z add sub mul div pow max ceil eqb leb ltb exact] in *;
  change (inject_Z 0) with 0%Q in *;
  change (inject_Z 1) with 1%Q in *.

(** ** The code on small inputs *)

Example equal_principal_two_periods :
  generateEqualPrincipalSchedule 200%Q (1 # 100)%Q 2
  = [ {| period := 1; payment := (200 / 2 + 200 * (1 # 100))%Q;
         principal := (200 / 2)%Q; interest := (200 * (1 # 100))%Q;
         balance := Qmax 0 (200 - 200 / 2)%Q |};
      {| period := 2; payment := (200 / 2 + (200 - 200 / 2) * (1 # 100))%Q;
         principal := (200 / 2)%Q; interest := ((200 - 200 / 2) * (1 # 100))%Q;
         balance := Qmax 0 (200 - 200 / 2 - 200 / 2)%Q |} ].
Proof. reflexivity. Qed.

Example equal_payment_zero_rate_two_periods :
  map (fun e => (period e, Qred (payment e), Qred (principal e), Qred (balance e)))
      (generateEqualPaymentSchedule 200%Q 0%Q 2)
  = [ (1%Z, 100%Q, 100%Q, 100%Q); (2%Z, 100%Q, 100%Q, 0%Q) ].
Proof. reflexivity. Qed.

Example calculateNewPeriods_sample :
  calculateNewPeriods 600%Q (1 # 100)%Q 112%Q = 6%Z.
Proof. vm_compute. reflexivity. Qed.

Example calculateMortgage_no_period :
  calculateMortgage
    {| totalLoan := 1200%Q; remainingPeriods := 0; annualRate := 12%Q;
       prepaymentAmount := 600%Q; repaymentMethod := equal_principal;
       prepaymentType := reduce_period |} = None.
Proof. reflexivity. Qed.

Example binary64_ceil_of_rounded_quotient :
  Binary64.ceil (PrimFloat.div (Binary64.of_Z 500000)
                               (PrimFloat.div (Binary64.of_Z 500000) (Binary64.of_Z 29)))
  = 30%Z.
Proof. vm_compute. reflexivity. Qed.

(** ** The loops, in any arithmetic *)

Section Loops.

Context {num : Type} `{Number num}.

Lemma forLoop_unroll (body : Z -> loopState -> loopState)
      (next : num -> num) (entry : Z -> num -> PaymentSchedule num) :
  (forall i b acc, body i (b, acc) = (next b, acc ++ [entry i b])) ->
  forall count i b acc,
    forLoop count i body (b, acc)
    = (Nat.iter count next b, acc ++ unrolled next entry count i b).
Proof.
  intros Hbody. induction count as [|count IH]; intros i b acc.
  - cbn. now rewrite app_nil_r.
  - cbn [forLoop]. rewrite Hbody, IH, Nat.iter_succ_r, <- app_assoc.
    f_equal. f_equal. unfold unrolled. cbn [seq map app].
    rewrite Z.add_0_r. f_equal. rewrite <- seq_shift, map_map.
    apply map_ext. intros k. rewrite Nat.iter_succ_r. f_equal. lia.
Qed.

Lemma generateEqualPaymentSchedule_unrolled principal monthlyRate periods :
  generateEqualPaymentSchedule principal monthlyRate periods
  = let monthlyPayment := calculateEqualPayment principal monthlyRate periods in
    unrolled (equalPaymentNext monthlyPayment monthlyRate)
             (equalPaymentEntry monthlyPayment monthlyRate)
             (Z.to_nat periods) 1 principal.
Proof.
  unfold generateEqualPaymentSchedule. cbv zeta.
  now rewrite (@forLoop_unroll _ _ _ (fun i b acc => eq_refl)).
Qed.

Lemma generateEqualPrincipalSchedule_unrolled principal monthlyRate periods :
  generateEqualPrincipalSchedule principal monthlyRate periods
  = let principalPayment := div principal (of_Z periods) in
    unrolled (equalPrincipalNext principalPayment)
             (equalPrincipalEntry principalPayment monthlyRate)
             (Z.to_nat periods) 1 principal.
Proof.
  unfold generateEqualPrincipalSchedule. cbv zeta.
  now rewrite (@forLoop_unroll _ _ _ (fun i b acc => eq_refl)).
Qed.

Lemma unrolled_length next entry count i (b : num) :
  length (unrolled next entry count i b) = count.
Proof. unfold unrolled. now rewrite length_map, length_seq. Qed.

Lemma unrolled_nth next entry count i (b : num) k :
  (k < count)%nat ->
  nth_error (unrolled next entry count i b) k
  = Some (entry (i + Z.of_nat k)%Z (Nat.iter k next b)).
Proof.
  intros Hk. unfold unrolled.
  rewrite nth_error_map, nth_error_seq.
  destruct (Nat.ltb_spec k count); [reflexivity | lia].
Qed.

Lemma unrolled_nth_inv next entry count i (b : num) k e :
  nth_error (unrolled next entry count i b) k = Some e ->
  (k < count)%nat /\ e = entry (i + Z.of_nat k)%Z (Nat.iter k next b).
Proof.
  intros He.
  assert (Hk : (k < count)%nat).
  { rewrite <- (unrolled_length next entry count i b).
    apply nth_error_Some. congruence. }
  split; [exact Hk|]. rewrite unrolled_nth in He by exact Hk. congruence.
Qed.

Lemma unrolled_first next entry count (b : num) :
  (0 < count)%nat ->
  exists rest, unrolled next entry count 1 b = entry 1%Z b :: rest.
Proof.
  intros Hcount. destruct count as [|count]; [lia|].
  unfold unrolled. cbn [seq map]. eexists. reflexivity.
Qed.

Lemma generateSchedule_first method principal monthlyRate periods :
  (1 <= periods)%Z ->
  exists first rest,
    generateSchedule method principal monthlyRate periods = first :: rest
    /\ payment first = firstPayment method principal monthlyRate periods.
Proof.
  intros Hn. destruct method; cbn [generateSchedule firstPayment].
  - rewrite generateEqualPaymentSchedule_unrolled. cbv zeta.
    destruct (unrolled_first
                (equalPaymentNext (calculateEqualPayment principal monthlyRate periods)
                                  monthlyRate)
                (equalPaymentEntry (calculateEqualPayment principal monthlyRate periods)
                                   monthlyRate)
                (count := Z.to_nat periods) principal) as [rest ->]; [lia|].
    eexists _, rest. split; reflexivity.
  - rewrite generateEqualPrincipalSchedule_unrolled. cbv zeta.
    destruct (unrolled_first
                (equalPrincipalNext (div principal (of_Z periods)))
                (equalPrincipalEntry (div principal (of_Z periods)) monthlyRate)
                (count := Z.to_nat periods) principal) as [rest ->]; [lia|].
    eexists _, rest. split; reflexivity.
Qed.

Lemma generateSchedule_length method principal monthlyRate periods :
  length (generateSchedule method principal monthlyRate periods) = Z.to_nat periods.
Proof.
  destruct method; cbn [generateSchedule].
  - rewrite generateEqualPaymentSchedule_unrolled. apply unrolled_length.
  - rewrite generateEqualPrincipalSchedule_unrolled. apply unrolled_length.
Qed.

End Loops.

(** ** Exact arithmetic: the running balance in closed form *)

Section ExactBalance.

Local Open Scope Q_scope.

Lemma Qpower_succ (q : Q) (k : nat) :
  0 < q -> q ^ Z.of_nat (S k) == q ^ Z.of_nat k * q.
Proof.
  intros Hq. rewrite Nat2Z.inj_succ. unfold Z.succ.
  rewrite Qpower_plus by (intros E; rewrite E in Hq; discriminate Hq).
  now rewrite Qpower_1_r.
Qed.

Lemma inject_Z_succ (k : nat) :
  inject_Z (Z.of_nat (S k)) == inject_Z (Z.of_nat k) + 1.
Proof. now rewrite Nat2Z.inj_succ, <- Z.add_1_r, inject_Z_plus. Qed.

(** Equal principal: after [k] iterations the balance is
    [principal - k * principalPayment]. *)
Lemma equalPrincipal_balance (principalPayment principal : Q) (k : nat) :
  Nat.iter k (equalPrincipalNext principalPayment) principal
  == principal - inject_Z (Z.of_nat k) * principalPayment.
Proof.
  induction k as [|k IH].
  - cbn. ring.
  - rewrite Nat.iter_succ. unfold equalPrincipalNext at 1. to_Q.
    rewrite IH, inject_Z_succ. ring.
Qed.

(** Equal payment: with [q = 1 + r], the balance [b k] after [k] iterations
    satisfies [b k * r = (P * r - M) * q ^ k + M], whatever the payment [M]. *)
Lemma equalPayment_balance (M r principal : Q) (k : nat) :
  0 < 1 + r ->
  Nat.iter k (equalPaymentNext M r) principal * r
  == (principal * r - M) * (1 + r) ^ Z.of_nat k + M.
Proof.
  intros Hq. induction k as [|k IH].
  - cbn. ring.
  - rewrite Nat.iter_succ. unfold equalPaymentNext at 1. to_Q.
    rewrite Qpower_succ by exact Hq.
    set (b := Nat.iter k (equalPaymentNext M r) principal) in *.
    set (qk := (1 + r) ^ Z.of_nat k) in *.
    transitivity ((b * r) * (1 + r) - M * r); [ring|].
    rewrite IH. ring.
Qed.

Lemma amortises_nonneg (B : nat -> Q) (n : nat) :
  amortises B n ->
  forall d, (d <= n)%nat -> 0 <= B (n - d)%nat /\ ((0 < d)%nat -> 0 < B (n - d)%nat).
Proof.
  intros [Hdec Hend]. induction d as [|d IH]; intros Hd.
  - rewrite Nat.sub_0_r, Hend. split; [apply Qle_refl | lia].
  - destruct IH as [IH _]; [lia|].
    assert (Hlt : B (S (n - S d)) < B (n - S d)%nat) by (apply Hdec; lia).
    replace (S (n - S d)) with (n - d)%nat in Hlt by lia.
    split; [|intros _]; lra.
Qed.


Lemma amortises_le (B : nat -> Q) (n k : nat) :
  amortises B n -> (k <= n)%nat -> 0 <= B k.
Proof.
  intros HB Hk. destruct (amortises_nonneg HB (d := n - k)) as [Hle _]; [lia|].
  now replace (n - (n - k))%nat with k in Hle by lia.
Qed.

End ExactBalance.

(** ** Exact arithmetic: the annuity payment *)

Section ExactPayment.

Local Open Scope Q_scope.

Variables (P r : Q) (n : Z).
Hypothesis HP : 0 < P.
Hypothesis Hn : (1 <= n)%Z.

Lemma periods_pos : 0 < inject_Z n.
Proof. change 0 with (inject_Z 0). rewrite <- Zlt_Qlt. lia. Qed.

Lemma periods_roundtrip : Z.of_nat (Z.to_nat n) = n.
Proof. apply Z2Nat.id. lia. Qed.

Lemma principal_share_pos : 0 < P / inject_Z n.
Proof. apply Qlt_shift_div_l; [apply periods_pos | lra]. Qed.

Lemma principal_share_total : inject_Z n * (P / inject_Z n) == P.
Proof. field. pose proof periods_pos. lra. Qed.

Lemma calculateEqualPayment_zero_rate :
  r == 0 -> calculateEqualPayment P r n = P / inject_Z n.
Proof.
  intros Hr. unfold calculateEqualPayment. to_Q.
  apply Qeq_bool_iff in Hr. now rewrite Hr.
Qed.

Lemma calculateEqualPayment_positive_rate :
  0 < r ->
  calculateEqualPayment P r n = P * (r * (1 + r) ^ n) / ((1 + r) ^ n - 1).
Proof.
  intros Hr. unfold calculateEqualPayment. to_Q.
  destruct (Qeq_bool r 0) eqn:E; [|reflexivity].
  apply Qeq_bool_iff in E. lra.
Qed.

Lemma annuity_denominator_pos : 0 < r -> 0 < (1 + r) ^ n - 1.
Proof.
  intros Hr. assert (1 < (1 + r) ^ n) by (apply Qpower_1_lt; [lra | lia]). lra.
Qed.

(** The payment exceeds the first interest [P * r] by [P * r / ((1+r)^n - 1)]. *)
Lemma annuity_excess :
  0 < r ->
  (calculateEqualPayment P r n - P * r) * ((1 + r) ^ n - 1) == P * r.
Proof.
  intros Hr. rewrite calculateEqualPayment_positive_rate by exact Hr.
  pose proof (annuity_denominator_pos Hr). field. lra.
Qed.

Lemma annuity_excess_pos : 0 < r -> 0 < calculateEqualPayment P r n - P * r.
Proof.
  intros Hr. pose proof (annuity_denominator_pos Hr) as HD.
  pose proof (annuity_excess Hr) as HE.
  set (c := calculateEqualPayment P r n - P * r) in *.
  destruct (Qlt_le_dec 0 c) as [Hc|Hc]; [exact Hc|exfalso].
  assert (c * ((1 + r) ^ n - 1) <= 0).
  { rewrite <- (Qmult_0_l ((1 + r) ^ n - 1)). apply Qmult_le_compat_r; lra. }
  assert (0 < P * r) by (apply Qmult_lt_0_compat; lra). lra.
Qed.

Lemma annuity_payment_excess :
  0 < r ->
  calculateEqualPayment P r n
  == (calculateEqualPayment P r n - P * r) * (1 + r) ^ n.
Proof.
  intros Hr. pose proof (annuity_excess Hr) as HE.
  set (M := calculateEqualPayment P r n) in *.
  set (Q := (1 + r) ^ n) in *. lra.
Qed.

(** With a positive rate the balance after [k] payments, times [r], is
    [(M - P r) ((1+r)^n - (1+r)^k)]. *)
Lemma annuity_balance (k : nat) :
  0 < r ->
  Nat.iter k (equalPaymentNext (calculateEqualPayment P r n) r) P * r
  == (calculateEqualPayment P r n - P * r) * ((1 + r) ^ n - (1 + r) ^ Z.of_nat k).
Proof.
  intros Hr. rewrite equalPayment_balance by lra.
  pose proof (annuity_payment_excess Hr) as HM.
  set (M := calculateEqualPayment P r n) in *.
  set (Qn := (1 + r) ^ n) in *. set (Qk := (1 + r) ^ Z.of_nat k) in *. lra.
Qed.

(** The principal component of period [k + 1] is [(M - P r) (1+r)^k]. *)
Lemma annuity_principal (k : nat) :
  0 < r ->
  calculateEqualPayment P r n
  - Nat.iter k (equalPaymentNext (calculateEqualPayment P r n) r) P * r
  == (calculateEqualPayment P r n - P * r) * (1 + r) ^ Z.of_nat k.
Proof.
  intros Hr. rewrite annuity_balance by exact Hr.
  pose proof (annuity_payment_excess Hr) as HM.
  set (M := calculateEqualPayment P r n) in *.
  set (Qn := (1 + r) ^ n) in *. set (Qk := (1 + r) ^ Z.of_nat k) in *. lra.
Qed.

Lemma annuity_principal_pos (k : nat) :
  0 < r ->
  0 < calculateEqualPayment P r n
      - Nat.iter k (equalPaymentNext (calculateEqualPayment P r n) r) P * r.
Proof.
  intros Hr. rewrite annuity_principal by exact Hr.
  apply Qmult_lt_0_compat; [now apply annuity_excess_pos|].
  apply Qpower_0_lt. lra.
Qed.

Lemma zero_rate_balance (k : nat) :
  r == 0 ->
  Nat.iter k (equalPaymentNext (calculateEqualPayment P r n) r) P
  == P - inject_Z (Z.of_nat k) * (P / inject_Z n).
Proof.
  intros Hr. rewrite (calculateEqualPayment_zero_rate Hr).
  induction k as [|k IH].
  - cbn. ring.
  - rewrite Nat.iter_succ. unfold equalPaymentNext at 1. to_Q.
    rewrite IH, inject_Z_succ, Hr. ring.
Qed.

Theorem equalPayment_amortises :
  0 <= r ->
  amortises (fun k => Nat.iter k (equalPaymentNext (calculateEqualPayment P r n) r) P)
            (Z.to_nat n).
Proof.
  intros Hr0. destruct (Qle_lt_or_eq _ _ Hr0) as [Hr|Hr]; split.
  - intros k _. rewrite Nat.iter_succ. unfold equalPaymentNext at 1. to_Q.
    pose proof (annuity_principal_pos k Hr). lra.
  - pose proof (annuity_balance (Z.to_nat n) Hr) as Hb.
    rewrite periods_roundtrip in Hb.
    assert (Hz : Nat.iter (Z.to_nat n)
                          (equalPaymentNext (calculateEqualPayment P r n) r) P * r == 0)
      by (rewrite Hb; ring).
    destruct (Qmult_integral _ _ Hz) as [E|E]; [exact E | lra].
  - symmetry in Hr. intros k _. rewrite Nat.iter_succ.
    unfold equalPaymentNext at 1. to_Q.
    pose proof (calculateEqualPayment_zero_rate Hr) as HM.
    set (M := calculateEqualPayment P r n) in *.
    set (b := Nat.iter k _ P). rewrite Hr, HM.
    pose proof principal_share_pos. lra.
  - symmetry in Hr. rewrite (zero_rate_balance _ Hr), periods_roundtrip.
    pose proof principal_share_total. lra.
Qed.

Theorem equalPrincipal_amortises :
  amortises (fun k => Nat.iter k (equalPrincipalNext (P / inject_Z n)) P) (Z.to_nat n).
Proof.
  split.
  - intros k _. rewrite Nat.iter_succ. unfold equalPrincipalNext at 1. to_Q.
    pose proof principal_share_pos. lra.
  - rewrite equalPrincipal_balance, periods_roundtrip.
    pose proof principal_share_total. lra.
Qed.

End ExactPayment.

(** ** Exact arithmetic: the generated schedules *)

Section ExactSchedules.

Local Open Scope Q_scope.

Lemma totalPrincipal_unrolled next entry count i (b : Q) :
  (forall j x, principal (entry j x) == x - next x) ->
  totalPrincipal (unrolled next entry count i b) == b - Nat.iter count next b.
Proof.
  intros Hp. unfold totalPrincipal, unrolled. induction count as [|count IH].
  - cbn. ring.
  - rewrite seq_S, map_app, fold_left_app. cbn [map fold_left Nat.add]. to_Q.
    rewrite IH, Hp, Nat.iter_succ. ring.
Qed.


End ExactSchedules.

(** ** The two schedule generators *)

Section Generators.

Local Open Scope Q_scope.

(** C1. For a principal [P > 0], a rate [r >= 0] and an integer number of
    periods [n >= 1], [generateEqualPaymentSchedule] returns [n] entries that
    all carry the same payment [M = calculateEqualPayment P r n]: [P / n] at
    a zero rate and
    [P * (r (1+r)^n) / ((1+r)^n - 1)] at a positive rate.  Along a running
    balance [B] that starts at [P], period [k + 1] has interest [B k * r],
    principal [payment - interest], leaves [B (k+1) = B k - principal] and
    records that balance clamped at zero. *)
Theorem equal_payment_schedule_shape (P r : Q) (n : Z) :
  0 < P -> 0 <= r -> (1 <= n)%Z ->
  let s := generateEqualPaymentSchedule P r n in
  let M := calculateEqualPayment P r n in
  (r == 0 -> M = P / inject_Z n)
  /\ (0 < r -> M = P * (r * (1 + r) ^ n) / ((1 + r) ^ n - 1))
  /\ length s = Z.to_nat n
  /\ (forall e, In e s -> payment e = M)
  /\ exists B : nat -> Q,
      B 0%nat = P
      /\ forall k e, nth_error s k = Some e ->
           period e = (Z.of_nat k + 1)%Z
           /\ interest e = B k * r
           /\ principal e = payment e - interest e
           /\ B (S k) = B k - principal e
           /\ balance e = Qmax 0 (B (S k)).
Proof.
  intros HP Hr Hn s M. subst s.
  rewrite generateEqualPaymentSchedule_unrolled. cbv zeta. fold M.
  split; [apply calculateEqualPayment_zero_rate|].
  split; [apply calculateEqualPayment_positive_rate|].
  split; [apply unrolled_length|].
  split.
  - intros e He. apply In_nth_error in He as [k Hk].
    now apply unrolled_nth_inv in Hk as [_ ->].
  - exists (fun k => Nat.iter k (equalPaymentNext M r) P). split; [reflexivity|].
    intros k e Hk. apply unrolled_nth_inv in Hk as [_ ->].
    rewrite Nat.iter_succ. unfold equalPaymentEntry, equalPaymentNext.
    cbn [period interest principal payment balance]. to_Q.
    repeat split. lia.
Qed.

Lemma equal_payment_schedule_shape_witness :
  length (generateEqualPaymentSchedule 1200 (1 # 100) 12) = 12%nat
  /\ forall e, In e (generateEqualPaymentSchedule 1200 (1 # 100) 12) ->
       payment e = 1200 * ((1 # 100) * (1 + (1 # 100)) ^ 12) / ((1 + (1 # 100)) ^ 12 - 1).
Proof.
  destruct (@equal_payment_schedule_shape 1200 (1 # 100) 12)
    as (_ & Hformula & Hlength & Hpayment & _); [reflexivity | discriminate | lia |].
  split; [exact Hlength|].
  intros e He. rewrite <- Hformula by reflexivity. now apply Hpayment.
Defined.







End Generators.



(** ** The minimal-term search *)

Section Bisection.

Context {num : Type} `{Number num}.
Variables principal monthlyRate monthlyPayment : num.

Lemma bisect_continue low high result :
  (low <= high)%Z ->
  bisect principal monthlyRate monthlyPayment low high result
  = let mid := ((low + high) / 2)%Z in
    if leb (calculateEqualPayment principal monthlyRate mid) monthlyPayment
    then bisect principal monthlyRate monthlyPayment low (mid - 1) mid
    else bisect principal monthlyRate monthlyPayment (mid + 1) high result.
Proof.
  intros Hle. rewrite bisect_equation_1.
  destruct (Z_le_gt_dec low high) as [l|g]; [|lia].
  now rewrite bisect_clause_1_equation_1.
Qed.

Lemma bisect_exit low high result :
  (low > high)%Z ->
  bisect principal monthlyRate monthlyPayment low high result = result.
Proof.
  intros Hgt. rewrite bisect_equation_1.
  destruct (Z_le_gt_dec low high) as [l|g]; [lia|].
  now rewrite bisect_clause_1_equation_2.
Qed.

Lemma midpoint_bounds low high :
  (low <= high)%Z -> (low <= (low + high) / 2 <= high)%Z.
Proof.
  intros Hle. split.
  - apply Z.div_le_lower_bound; lia.
  - apply Z.div_le_upper_bound; lia.
Qed.

(** Once a period count passes the test [payment <= monthlyPayment], every
    longer one does. *)
Hypothesis test_monotone :
  forall m m', (1 <= m <= m')%Z ->
    leb (calculateEqualPayment principal monthlyRate m) monthlyPayment = true ->
    leb (calculateEqualPayment principal monthlyRate m') monthlyPayment = true.

Lemma bisect_invariant (fuel : nat) :
  forall low high result,
    (Z.to_nat (high - low + 1) <= fuel)%nat ->
    (1 <= low)%Z -> (low <= high + 1)%Z -> (high <= 1000)%Z ->
    (forall m, (1 <= m < low)%Z ->
       leb (calculateEqualPayment principal monthlyRate m) monthlyPayment = false) ->
    (high = 1000%Z /\ result = 1000%Z
     \/ (high < 1000)%Z /\ result = (high + 1)%Z
        /\ leb (calculateEqualPayment principal monthlyRate result) monthlyPayment = true) ->
    let t := bisect principal monthlyRate monthlyPayment low high result in
    (1 <= t <= 1000)%Z
    /\ (leb (calculateEqualPayment principal monthlyRate t) monthlyPayment = true
        /\ (forall m, (1 <= m < t)%Z ->
              leb (calculateEqualPayment principal monthlyRate m) monthlyPayment = false)
        \/ t = 1000%Z
           /\ forall m, (1 <= m <= 1000)%Z ->
                leb (calculateEqualPayment principal monthlyRate m) monthlyPayment = false).
Proof.
  induction fuel as [|fuel IH]; intros low high result Hfuel Hlow Hgap Hhigh Hbelow Hres t;
    subst t.
  - rewrite bisect_exit by lia.
    assert (low = high + 1)%Z by lia. subst low.
    destruct Hres as [[-> ->] | (Hlt & -> & Htest)].
    + split; [lia|]. right. split; [reflexivity|]. intros m Hm. apply Hbelow. lia.
    + split; [lia|]. left. split; [exact Htest | exact Hbelow].
  - destruct (Z_le_gt_dec low high) as [Hle|Hgt].
    + rewrite bisect_continue by exact Hle. cbv zeta.
      pose proof (midpoint_bounds Hle) as Hmid.
      set (mid := ((low + high) / 2)%Z) in *.
      destruct (leb (calculateEqualPayment principal monthlyRate mid) monthlyPayment)
        eqn:Htest.
      * apply IH; try lia; [exact Hbelow|].
        right. repeat split; [lia | lia | exact Htest].
      * apply IH; try lia; [|exact Hres].
        intros m Hm.
        destruct (leb (calculateEqualPayment principal monthlyRate m) monthlyPayment)
          eqn:Hm'; [|reflexivity].
        rewrite (test_monotone (m := m) (m' := mid)) in Htest by (lia || exact Hm').
        discriminate Htest.
    + rewrite bisect_exit by exact Hgt.
      assert (low = high + 1)%Z by lia. subst low.
      destruct Hres as [[-> ->] | (Hlt & -> & Htest)].
      * split; [lia|]. right. split; [reflexivity|]. intros m Hm. apply Hbelow. lia.
      * split; [lia|]. left. split; [exact Htest | exact Hbelow].
Qed.

End Bisection.

Section SearchRange.

Context {num : Type} `{Number num}.

(** Whatever the comparisons answer, the search stays within its bounds. *)
Lemma bisect_range (principal monthlyRate monthlyPayment : num) (fuel : nat) :
  forall low high result,
    (Z.to_nat (high - low + 1) <= fuel)%nat ->
    (1 <= low)%Z -> (high <= 1000)%Z -> (1 <= result <= 1000)%Z ->
    (1 <= bisect principal monthlyRate monthlyPayment low high result <= 1000)%Z.
Proof.
  induction fuel as [|fuel IH]; intros low high result Hfuel Hlow Hhigh Hres.
  - rewrite bisect_exit by lia. exact Hres.
  - destruct (Z_le_gt_dec low high) as [Hle|Hgt].
    + rewrite bisect_continue by exact Hle. cbv zeta.
      pose proof (midpoint_bounds Hle) as Hmid.
      destruct (leb (calculateEqualPayment principal monthlyRate ((low + high) / 2))
                    monthlyPayment); apply IH; lia.
    + rewrite bisect_exit by exact Hgt. exact Hres.
Qed.

(** When every term of the range fails the test, the search returns the
    result it started with. *)
Lemma bisect_all_fail (principal monthlyRate monthlyPayment : num) (fuel : nat) :
  forall low high result,
    (Z.to_nat (high - low + 1) <= fuel)%nat ->
    (forall m, (low <= m <= high)%Z ->
       leb (calculateEqualPayment principal monthlyRate m) monthlyPayment = false) ->
    bisect principal monthlyRate monthlyPayment low high result = result.
Proof.
  induction fuel as [|fuel IH]; intros low high result Hfuel Hfail.
  - apply bisect_exit. lia.
  - destruct (Z_le_gt_dec low high) as [Hle|Hgt].
    + rewrite bisect_continue by exact Hle. cbv zeta.
      pose proof (midpoint_bounds Hle) as Hmid.
      rewrite (Hfail _ Hmid). apply IH; [lia|].
      intros m Hm. apply Hfail. lia.
    + apply bisect_exit. exact Hgt.
Qed.

End SearchRange.

Section ExactSearch.

Local Open Scope Q_scope.

Variables (P r target : Q).
Hypothesis HP : 0 < P.

(** At a positive rate a longer term never has a larger payment. *)
Lemma calculateEqualPayment_antitone (m m' : Z) :
  0 < r -> (1 <= m <= m')%Z ->
  calculateEqualPayment P r m' <= calculateEqualPayment P r m.
Proof.
  intros Hr [Hm Hmm'].
  assert (Hm' : (1 <= m')%Z) by lia.
  pose proof (annuity_excess P Hm Hr) as E.
  pose proof (annuity_excess P Hm' Hr) as E'.
  pose proof (annuity_excess_pos HP Hm' Hr) as Hc'.
  pose proof (annuity_denominator_pos (n := m) Hm Hr) as HD.
  assert (Hpow : (1 + r) ^ m <= (1 + r) ^ m') by (apply Qpower_le_compat_l; [lia | lra]).
  set (c := calculateEqualPayment P r m - P * r) in *.
  set (c' := calculateEqualPayment P r m' - P * r) in *.
  assert (Hle : c' * ((1 + r) ^ m - 1) <= c * ((1 + r) ^ m - 1)).
  { rewrite E, <- E'. apply Qmult_le_l; [exact Hc' | lra]. }
  apply Qmult_le_r in Hle; [|exact HD].
  subst c c'. lra.
Qed.

Lemma payment_test_monotone :
  0 < r ->
  forall m m', (1 <= m <= m')%Z ->
    leb (calculateEqualPayment P r m) target = true ->
    leb (calculateEqualPayment P r m') target = true.
Proof.
  intros Hr m m' Hm. to_Q. rewrite !Qle_bool_iff.
  pose proof (calculateEqualPayment_antitone Hr Hm). lra.
Qed.

End ExactSearch.

(** C2.  In any arithmetic, when the rate fails the test
    [monthlyRate === 0], [calculateNewPeriods] returns a period count in
    [1..1000], and it returns 1000 when no count in [1..1000] has a payment
    that passes the test [<= target].  In exact arithmetic, for [P > 0] and
    a target payment [> 0]: at a positive rate, when some count in [1..1000]
    has a payment [<= target], the count [t] returned is the smallest such
    count (its payment is [<= target] and every shorter term has a payment
    [> target]); when none has, [t = 1000].  At a zero rate it returns
    [ceil (P / target)]. *)
Theorem calculateNewPeriods_minimal_term :
  (forall (num : Type) (N : Number num) (P r target : num),
      eqb r (of_Z 0) = false ->
      let t := calculateNewPeriods P r target in
      (1 <= t <= 1000)%Z
      /\ ((forall n, (1 <= n <= 1000)%Z ->
             leb (calculateEqualPayment P r n) target = false) ->
          t = 1000%Z))
  /\ (forall P r target : Q,
        (0 < P)%Q -> (0 < target)%Q ->
        ((0 < r)%Q ->
         let t := calculateNewPeriods P r target in
         (1 <= t <= 1000)%Z
         /\ ((exists n, (1 <= n <= 1000)%Z /\ (calculateEqualPayment P r n <= target)%Q) ->
             (calculateEqualPayment P r t <= target)%Q
             /\ forall m, (1 <= m < t)%Z -> (target < calculateEqualPayment P r m)%Q)
         /\ ((t < 1000)%Z ->
             (calculateEqualPayment P r t <= target)%Q
             /\ forall m, (1 <= m < t)%Z -> (target < calculateEqualPayment P r m)%Q)
         /\ ((forall n, (1 <= n <= 1000)%Z -> (target < calculateEqualPayment P r n)%Q) ->
             t = 1000%Z))
        /\ ((r == 0)%Q -> calculateNewPeriods P r target = Qceiling (P / target))).
Proof.
  split.
  { intros num N P r target Hrate t. subst t. unfold calculateNewPeriods.
    rewrite Hrate. split.
    - apply (bisect_range P r target (fuel := 1000)); lia.
    - intros Hfail. apply (bisect_all_fail P r target (fuel := 1000)); [lia | exact Hfail]. }
  intros P r target HP Ht. split.
  - intros Hr t.
    assert (Hrate : Qeq_bool r 0 = false).
    { destruct (Qeq_bool r 0) eqn:E; [|reflexivity]. apply Qeq_bool_iff in E. lra. }
    assert (Hnot : forall x, Qle_bool x target = false <-> (target < x)%Q).
    { intros x. split; intros Hx.
      - apply Qnot_le_lt. intros Hle. apply Qle_bool_iff in Hle. congruence.
      - destruct (Qle_bool x target) eqn:E; [|reflexivity].
        apply Qle_bool_iff in E. lra. }
    destruct (@bisect_invariant _ _ P r target
                (payment_test_monotone target HP Hr) 1000 1 1000 1000)
      as [Hrange Hcases];
      try lia; try (intros m Hm; lia); try (left; split; reflexivity).
    fold (calculateNewPeriods P r target) in *.
    assert (Ht' : calculateNewPeriods P r target
                  = bisect P r target 1 1000 1000).
    { unfold calculateNewPeriods. to_Q. now rewrite Hrate. }
    rewrite <- Ht' in Hrange, Hcases. fold t in Hrange, Hcases. to_Q.
    split; [exact Hrange|]. split.
    + intros (n & Hn & Hpay).
      destruct Hcases as [[Hok Hmin] | [_ Hnone]].
      * split; [now apply Qle_bool_iff|].
        intros m Hm. apply Hnot. now apply Hmin.
      * specialize (Hnone n Hn). apply Hnot in Hnone. lra.
    + split.
      { intros Hlt. destruct Hcases as [[Hok Hmin] | [Ht1000 _]]; [|lia].
        split; [now apply Qle_bool_iff|].
        intros m Hm. apply Hnot. now apply Hmin. }
      intros Hall.
      destruct Hcases as [[Hok _] | [Ht1000 _]]; [|exact Ht1000].
      apply Qle_bool_iff in Hok. specialize (Hall t Hrange). lra.
  - intros Hr. unfold calculateNewPeriods. to_Q.
    apply Qeq_bool_iff in Hr. now rewrite Hr.
Qed.

Lemma calculateNewPeriods_minimal_term_witness :
  (1 <= calculateNewPeriods 600%Q (1 # 100)%Q 112%Q <= 1000)%Z
  /\ ((calculateNewPeriods 600%Q (1 # 100)%Q 112%Q < 1000)%Z ->
      (calculateEqualPayment 600 (1 # 100) (calculateNewPeriods 600%Q (1 # 100)%Q 112%Q)
       <= 112)%Q
      /\ forall m, (1 <= m < calculateNewPeriods 600%Q (1 # 100)%Q 112%Q)%Z ->
           (112 < calculateEqualPayment 600 (1 # 100) m)%Q).
Proof.
  destruct calculateNewPeriods_minimal_term as [_ Hexact].
  destruct (Hexact 600%Q (1 # 100)%Q 112%Q) as [Hpositive _];
    [reflexivity | reflexivity |].
  destruct Hpositive as (Hrange & _ & Hminimal & _); [reflexivity|].
  split; [exact Hrange | exact Hminimal].
Defined.

(** C2 without the restriction to exact arithmetic fails.  In double
    precision the search can miss the smallest term.  For
    [P = 1000], [r = 4] and a target of [10^9], one period costs
    [1000 * (4 * 5) / (5 - 1) = 5000], within the target; but every term the
    search probes (500, 750, .., 1000) has [5^n] overflowing to [+Infinity],
    a NaN payment and a failed comparison, so the search returns 1000.  The
    powers involved are exact ([5^1]) or overflow, so every [Math.pow] gives
    them. *)
Lemma calculateNewPeriods_not_minimal_binary64 :
  ltb (Number := Binary64.js) (Binary64.of_Z 0) (Binary64.of_Z 1000) = true
  /\ ltb (Number := Binary64.js) (Binary64.of_Z 0) (Binary64.of_Z 4) = true
  /\ ltb (Number := Binary64.js) (Binary64.of_Z 0) (Binary64.of_Z 1000000000) = true
  /\ calculateEqualPayment (H := Binary64.js) (Binary64.of_Z 1000) (Binary64.of_Z 4) 1
     = Binary64.of_Z 5000
  /\ leb (Number := Binary64.js)
         (calculateEqualPayment (H := Binary64.js) (Binary64.of_Z 1000) (Binary64.of_Z 4) 1)
         (Binary64.of_Z 1000000000) = true
  /\ calculateNewPeriods (H := Binary64.js)
       (Binary64.of_Z 1000) (Binary64.of_Z 4) (Binary64.of_Z 1000000000) = 1000%Z.
Proof. vm_compute. repeat split. Qed.

(** ** [calculateMortgage], branch by branch, in any arithmetic *)

Section Mortgage.

Context {num : Type} `{Number num}.
Variable input : MortgageInput num.
Hypothesis Hperiods : (1 <= remainingPeriods input)%Z.

Let monthlyRate : num := getMonthlyRate (annualRate input).
Let remainingPrincipal : num := sub (totalLoan input) (prepaymentAmount input).
Let originalSchedule : list (PaymentSchedule num) :=
  generateSchedule (repaymentMethod input) (totalLoan input) monthlyRate
                   (remainingPeriods input).
Let originalPayment : num :=
  firstPayment (repaymentMethod input) (totalLoan input) monthlyRate
               (remainingPeriods input).

Lemma calculateMortgage_paid_off :
  leb remainingPrincipal (of_Z 0) = true ->
  calculateMortgage input
  = Some {| originalMonthlyPayment := originalPayment;
            totalInterestOriginal := calculateTotalInterest originalSchedule;
            newMonthlyPayment := of_Z 0;
            totalInterestNew := of_Z 0;
            interestSavings := calculateTotalInterest originalSchedule;
            periodReduction := remainingPeriods input;
            newRemainingPeriods := 0;
            schedule := [] |}.
Proof.
  intros Hleb.
  destruct (generateSchedule_first (repaymentMethod input) (totalLoan input)
              monthlyRate Hperiods) as (first & rest & Heq & Hpay).
  unfold calculateMortgage. cbv zeta.
  fold monthlyRate. fold remainingPrincipal. fold originalSchedule.
  unfold originalSchedule at 1. rewrite Heq, Hleb, Hpay. reflexivity.
Qed.

Lemma calculateMortgage_reduce_payment :
  leb remainingPrincipal (of_Z 0) = false ->
  prepaymentType input = reduce_payment ->
  let newSchedule :=
    generateSchedule (repaymentMethod input) remainingPrincipal monthlyRate
                     (remainingPeriods input) in
  calculateMortgage input
  = Some {| originalMonthlyPayment := originalPayment;
            totalInterestOriginal := calculateTotalInterest originalSchedule;
            newMonthlyPayment :=
              firstPayment (repaymentMethod input) remainingPrincipal monthlyRate
                           (remainingPeriods input);
            totalInterestNew := calculateTotalInterest newSchedule;
            interestSavings :=
              sub (calculateTotalInterest originalSchedule)
                  (calculateTotalInterest newSchedule);
            periodReduction := 0;
            newRemainingPeriods := remainingPeriods input;
            schedule := newSchedule |}.
Proof.
  intros Hleb Htype newSchedule.
  destruct (generateSchedule_first (repaymentMethod input) (totalLoan input)
              monthlyRate Hperiods) as (first & rest & Heq & Hpay).
  destruct (generateSchedule_first (repaymentMethod input) remainingPrincipal
              monthlyRate Hperiods) as (first' & rest' & Heq' & Hpay').
  unfold calculateMortgage. cbv zeta.
  fold monthlyRate. fold remainingPrincipal. fold originalSchedule. fold newSchedule.
  unfold originalSchedule at 1. rewrite Heq, Hleb, Htype.
  unfold newSchedule at 1. rewrite Heq', Hpay, Hpay'. reflexivity.
Qed.

(** The branch [reduce_period] takes its term from [Math.ceil] (directly or
    at a zero rate in [calculateNewPeriods]); this unfolding is applied at
    the exact instance. *)
Lemma calculateMortgage_reduce_period :
  leb remainingPrincipal (of_Z 0) = false ->
  prepaymentType input = reduce_period ->
  let newPeriods :=
    match repaymentMethod input with
    | equal_principal_interest =>
        calculateNewPeriods remainingPrincipal monthlyRate originalPayment
    | equal_principal =>
        ceil (div remainingPrincipal
                  (div (totalLoan input) (of_Z (remainingPeriods input))))
    end in
  let newSchedule :=
    generateSchedule (repaymentMethod input) remainingPrincipal monthlyRate newPeriods in
  calculateMortgage input
  = Some {| originalMonthlyPayment := originalPayment;
            totalInterestOriginal := calculateTotalInterest originalSchedule;
            newMonthlyPayment := originalPayment;
            totalInterestNew := calculateTotalInterest newSchedule;
            interestSavings :=
              sub (calculateTotalInterest originalSchedule)
                  (calculateTotalInterest newSchedule);
            periodReduction := (remainingPeriods input - newPeriods)%Z;
            newRemainingPeriods := newPeriods;
            schedule := newSchedule |}.
Proof.
  intros Hleb Htype newPeriods newSchedule.
  destruct (generateSchedule_first (repaymentMethod input) (totalLoan input)
              monthlyRate Hperiods) as (first & rest & Heq & Hpay).
  unfold calculateMortgage. cbv zeta.
  fold monthlyRate. fold remainingPrincipal. fold originalSchedule.
  unfold originalSchedule at 1. rewrite Heq, Hleb, Htype, Hpay. reflexivity.
Qed.

End Mortgage.

(** ** [calculateMortgage] in exact arithmetic *)

Section ExactMortgage.

Local Open Scope Q_scope.

Lemma Qle_bool_false_iff (a b : Q) : Qle_bool a b = false <-> b < a.
Proof.
  split; intros Hab.
  - apply Qnot_le_lt. intros Hle. apply Qle_bool_iff in Hle. congruence.
  - destruct (Qle_bool a b) eqn:E; [|reflexivity]. apply Qle_bool_iff in E. lra.
Qed.

(** What the form's guard lets through. *)
Lemma handleCalculateAccepts_exact (input : MortgageInput Q) :
  handleCalculateAccepts input = true <->
  0 < totalLoan input
  /\ (1 <= remainingPeriods input)%Z
  /\ 0 <= annualRate input
  /\ 0 <= prepaymentAmount input
  /\ prepaymentAmount input < totalLoan input.
Proof.
  unfold handleCalculateAccepts. to_Q.
  rewrite andb_true_iff, !negb_true_iff, !orb_false_iff, !negb_false_iff.
  rewrite !Qle_bool_false_iff, !Qle_bool_iff, Z.leb_gt. intuition lia.
Qed.

Lemma getMonthlyRate_nonneg (annualRate : Q) :
  0 <= annualRate -> 0 <= getMonthlyRate annualRate.
Proof.
  intros Hrate. unfold getMonthlyRate. to_Q.
  change (inject_Z 100) with 100. change (inject_Z 12) with 12.
  unfold Qdiv. repeat apply Qmult_le_0_compat; try exact Hrate;
    apply Qinv_le_0_compat; lra.
Qed.

(** A smaller principal has a smaller first payment, under either method. *)
Lemma firstPayment_increasing method (P P' r : Q) (n : Z) :
  0 <= r -> (1 <= n)%Z -> P' < P ->
  firstPayment method P' r n < firstPayment method P r n.
Proof.
  intros Hr Hn HP. pose proof (periods_pos Hn) as Hpos.
  assert (Hshare : P' / inject_Z n < P / inject_Z n).
  { unfold Qdiv. apply Qmult_lt_compat_r; [now apply Qinv_lt_0_compat | exact HP]. }
  destruct method; cbn [firstPayment]; to_Q.
  - destruct (Qle_lt_or_eq _ _ Hr) as [Hpos_r | Hzero].
    + rewrite !calculateEqualPayment_positive_rate by exact Hpos_r.
      pose proof (annuity_denominator_pos Hn Hpos_r) as HD.
      unfold Qdiv. apply Qmult_lt_compat_r; [now apply Qinv_lt_0_compat|].
      apply Qmult_lt_compat_r; [|exact HP].
      apply Qmult_lt_0_compat; [exact Hpos_r | apply Qpower_0_lt; lra].
    + symmetry in Hzero. now rewrite !calculateEqualPayment_zero_rate by exact Hzero.
  - assert (P' * r <= P * r) by (apply Qmult_le_compat_r; lra). lra.
Qed.

End ExactMortgage.

(** ** The prepayment strategies *)

(** C5. Whatever the arithmetic: on an input with [remainingPeriods >= 1]
    whose remaining principal [totalLoan - prepaymentAmount] passes the test
    [<= 0], [calculateMortgage] returns at once, for every repayment method
    and prepayment strategy, with [newMonthlyPayment = 0],
    [totalInterestNew = 0], [interestSavings = totalInterestOriginal],
    [periodReduction = remainingPeriods], [newRemainingPeriods = 0] and an
    empty schedule. *)
Theorem full_prepayment_short_circuit
        (num : Type) (N : Number num) (input : MortgageInput num) :
  (1 <= remainingPeriods input)%Z ->
  leb (sub (totalLoan input) (prepaymentAmount input)) (of_Z 0) = true ->
  exists res,
    calculateMortgage input = Some res
    /\ newMonthlyPayment res = of_Z 0
    /\ totalInterestNew res = of_Z 0
    /\ interestSavings res = totalInterestOriginal res
    /\ periodReduction res = remainingPeriods input
    /\ newRemainingPeriods res = 0%Z
    /\ schedule res = [].
Proof.
  intros Hn Hleb. rewrite (calculateMortgage_paid_off input Hn Hleb).
  eexists. split; [reflexivity|]. cbn. repeat split.
Qed.

Lemma full_prepayment_short_circuit_witness :
  exists res,
    calculateMortgage
      {| totalLoan := 500000%Q; remainingPeriods := 240; annualRate := (385 # 100)%Q;
         prepaymentAmount := 500000%Q; repaymentMethod := equal_principal_interest;
         prepaymentType := reduce_payment |} = Some res
    /\ newMonthlyPayment res = 0%Q
    /\ totalInterestNew res = 0%Q
    /\ interestSavings res = totalInterestOriginal res
    /\ periodReduction res = 240%Z
    /\ newRemainingPeriods res = 0%Z
    /\ schedule res = [].
Proof.
  apply (@full_prepayment_short_circuit Q exact
           {| totalLoan := 500000%Q; remainingPeriods := 240;
              annualRate := (385 # 100)%Q;
              prepaymentAmount := 500000%Q; repaymentMethod := equal_principal_interest;
              prepaymentType := reduce_payment |});
    [cbn; lia | reflexivity].
Defined.

(** C4.  In any arithmetic, on an input with an integer
    [remainingPeriods >= 1] whose remaining principal
    [totalLoan - prepaymentAmount] fails the test [<= 0], with the strategy
    [reduce_payment], [calculateMortgage] returns
    [newRemainingPeriods = remainingPeriods], [periodReduction = 0], the
    schedule generated by the same method over
    [(remainingPrincipal, monthlyRate, remainingPeriods)], and
    [newMonthlyPayment] equal to the payment of that schedule's first entry.
    In exact arithmetic, under the caller preconditions, the remaining
    principal does fail that test and, when [prepaymentAmount > 0],
    [newMonthlyPayment] is strictly below [originalMonthlyPayment]. *)
Theorem reduce_payment_keeps_term :
  (forall (num : Type) (N : Number num) (input : MortgageInput num),
      (1 <= remainingPeriods input)%Z ->
      leb (sub (totalLoan input) (prepaymentAmount input)) (of_Z 0) = false ->
      prepaymentType input = reduce_payment ->
      exists res,
        calculateMortgage input = Some res
        /\ newRemainingPeriods res = remainingPeriods input
        /\ periodReduction res = 0%Z
        /\ schedule res
           = generateSchedule (repaymentMethod input)
                              (sub (totalLoan input) (prepaymentAmount input))
                              (getMonthlyRate (annualRate input))
                              (remainingPeriods input)
        /\ exists first rest,
            schedule res = first :: rest /\ newMonthlyPayment res = payment first)
  /\ (forall input : MortgageInput Q,
        callerPreconditions input ->
        prepaymentType input = reduce_payment ->
        leb (sub (totalLoan input) (prepaymentAmount input)) (of_Z 0) = false
        /\ ((0 < prepaymentAmount input)%Q ->
            exists res,
              calculateMortgage input = Some res
              /\ (newMonthlyPayment res < originalMonthlyPayment res)%Q)).
Proof.
  split.
  - intros num N input Hn Hleb Htype.
    rewrite (calculateMortgage_reduce_payment input Hn Hleb Htype). cbv zeta.
    eexists. split; [reflexivity|].
    cbn [newRemainingPeriods periodReduction schedule newMonthlyPayment].
    split; [reflexivity|]. split; [reflexivity|]. split; [reflexivity|].
    destruct (generateSchedule_first (repaymentMethod input)
                (sub (totalLoan input) (prepaymentAmount input))
                (getMonthlyRate (annualRate input)) Hn) as (first & rest & Heq & Hpay).
    exists first, rest. split; [exact Heq | now rewrite Hpay].
  - intros input (HL & Hn & Hrate & Hp & HpL) Htype.
    assert (Hleb : leb (sub (totalLoan input) (prepaymentAmount input)) (of_Z 0) = false)
      by (to_Q; apply Qle_bool_false_iff; lra).
    split; [exact Hleb|]. intros Hpos.
    rewrite (calculateMortgage_reduce_payment input Hn Hleb Htype). cbv zeta.
    eexists. split; [reflexivity|].
    cbn [newMonthlyPayment originalMonthlyPayment]. to_Q.
    apply firstPayment_increasing;
      [now apply getMonthlyRate_nonneg | exact Hn | lra].
Qed.

Lemma reduce_payment_keeps_term_witness :
  (exists res,
      calculateMortgage (sampleForm equal_principal_interest reduce_payment) = Some res
      /\ newRemainingPeriods res = 12%Z
      /\ periodReduction res = 0%Z
      /\ schedule res
         = generateSchedule equal_principal_interest (1200 - 600)%Q
                            (getMonthlyRate 12%Q) 12
      /\ exists first rest,
          schedule res = first :: rest /\ newMonthlyPayment res = payment first)
  /\ (exists res,
        calculateMortgage (sampleForm equal_principal_interest reduce_payment) = Some res
        /\ (newMonthlyPayment res < originalMonthlyPayment res)%Q).
Proof.
  destruct reduce_payment_keeps_term as [Hany Hexact]. split.
  - apply (Hany Q exact (sampleForm equal_principal_interest reduce_payment));
      [cbn; lia | reflexivity | reflexivity].
  - apply (Hexact (sampleForm equal_principal_interest reduce_payment));
      [unfold callerPreconditions; cbn; repeat split; (reflexivity || discriminate)
      | reflexivity | reflexivity].
Defined.

(** C4 without the restriction to exact arithmetic fails.  In double
    precision a positive prepayment need not lower the payment.
    For [totalLoan = 10^17] over 2 periods at a zero rate and
    [prepaymentAmount = 1], which meet the caller preconditions, the
    subtraction [10^17 - 1] rounds back to [10^17]: under either method
    [newMonthlyPayment] and [originalMonthlyPayment] are both [5 * 10^16].
    At a zero rate [Math.pow] is not called. *)
Lemma reduce_payment_not_strict_binary64 :
  ltb (Number := Binary64.js) (Binary64.of_Z 0) (Binary64.of_Z (10 ^ 17)) = true
  /\ ltb (Number := Binary64.js) (Binary64.of_Z 0) (Binary64.of_Z 1) = true
  /\ ltb (Number := Binary64.js) (Binary64.of_Z 1) (Binary64.of_Z (10 ^ 17)) = true
  /\ leb (Number := Binary64.js) (Binary64.of_Z 0) (Binary64.of_Z 0) = true
  /\ option_map (fun res => (originalMonthlyPayment res, newMonthlyPayment res,
                             newRemainingPeriods res))
                (calculateMortgage (H := Binary64.js)
                                   (largeLoanForm equal_principal_interest))
     = Some (Binary64.of_Z (5 * 10 ^ 16), Binary64.of_Z (5 * 10 ^ 16), 2%Z)
  /\ option_map (fun res => (originalMonthlyPayment res, newMonthlyPayment res,
                             newRemainingPeriods res))
                (calculateMortgage (H := Binary64.js) (largeLoanForm equal_principal))
     = Some (Binary64.of_Z (5 * 10 ^ 16), Binary64.of_Z (5 * 10 ^ 16), 2%Z).
Proof. vm_compute. repeat split. Qed.

(** ** Shortening the term *)

Section ExactReduceTerm.

Local Open Scope Q_scope.

Lemma ceiling_share_le (L p : Q) (n : Z) :
  0 < L -> 0 <= p -> (1 <= n)%Z ->
  (Qceiling ((L - p) / (L / inject_Z n)) <= n)%Z.
Proof.
  intros HL Hp Hn. rewrite <- (Qceiling_Z n) at 2. apply Qceiling_resp_le.
  apply Qle_shift_div_r; [now apply principal_share_pos|].
  rewrite (principal_share_total L Hn). lra.
Qed.

Lemma calculateNewPeriods_le (L p r : Q) (n : Z) :
  0 < L -> 0 <= p -> p < L -> 0 <= r -> (1 <= n)%Z ->
  (calculateNewPeriods (L - p)%Q r (calculateEqualPayment L r n) <= n)%Z.
Proof.
  intros HL Hp HpL Hr Hn. unfold calculateNewPeriods. to_Q.
  destruct (Qeq_bool r 0) eqn:Hrate.
  - apply Qeq_bool_iff in Hrate.
    rewrite (calculateEqualPayment_zero_rate L n Hrate).
    now apply ceiling_share_le.
  - assert (Hpos : 0 < r).
    { destruct (Qle_lt_or_eq _ _ Hr) as [Hlt|Heq]; [exact Hlt|].
      symmetry in Heq. apply Qeq_bool_iff in Heq. congruence. }
    assert (HP : 0 < L - p) by lra.
    destruct (@bisect_invariant _ _ (L - p) r (calculateEqualPayment L r n)
                (payment_test_monotone (calculateEqualPayment L r n) HP Hpos)
                1000 1 1000 1000)
      as [Hrange Hcases];
      try lia; try (intros m Hm; lia); try (left; split; reflexivity).
    destruct (Z_le_gt_dec n 1000) as [Hsmall|Hbig]; [|lia].
    assert (Hn_ok : leb (calculateEqualPayment (L - p) r n)
                        (calculateEqualPayment L r n) = true).
    { to_Q. apply Qle_bool_iff.
      destruct (Qle_lt_or_eq _ _ Hp) as [Hlt|Heq].
      - apply Qlt_le_weak.
        apply (@firstPayment_increasing equal_principal_interest L (L - p) r n);
          [exact Hr | exact Hn | lra].
      - rewrite !calculateEqualPayment_positive_rate by exact Hpos.
        rewrite <- Heq. setoid_replace (L - 0) with L by ring. apply Qle_refl. }
    destruct Hcases as [[_ Hmin] | [_ Hnone]].
    + destruct (Z_le_gt_dec (bisect (L - p) r (calculateEqualPayment L r n) 1 1000 1000) n)
        as [Hle|Hgt]; [exact Hle|].
      rewrite Hmin in Hn_ok by lia. discriminate Hn_ok.
    + rewrite Hnone in Hn_ok by lia. discriminate Hn_ok.
Qed.

(** In exact arithmetic the strategy [reduce_period] never lengthens the
    term, under either repayment method. *)
Theorem reduce_period_never_lengthens_exact (input : MortgageInput Q) :
  handleCalculateAccepts input = true ->
  prepaymentType input = reduce_period ->
  exists res,
    calculateMortgage input = Some res
    /\ (newRemainingPeriods res <= remainingPeriods input)%Z
    /\ periodReduction res = (remainingPeriods input - newRemainingPeriods res)%Z
    /\ (0 <= periodReduction res)%Z.
Proof.
  intros Hvalid Htype.
  apply handleCalculateAccepts_exact in Hvalid as (HL & Hn & Hrate & Hp & HpL).
  assert (Hleb : leb (sub (totalLoan input) (prepaymentAmount input)) (of_Z 0) = false)
    by (to_Q; apply Qle_bool_false_iff; lra).
  rewrite (calculateMortgage_reduce_period input Hn Hleb Htype). cbv zeta.
  eexists. split; [reflexivity|].
  cbn [newRemainingPeriods periodReduction]. to_Q.
  assert (Hle : (match repaymentMethod input with
                 | equal_principal_interest =>
                     calculateNewPeriods
                       (totalLoan input - prepaymentAmount input)%Q
                       (getMonthlyRate (annualRate input))
                       (firstPayment (repaymentMethod input) (totalLoan input)
                                     (getMonthlyRate (annualRate input))
                                     (remainingPeriods input))
                 | equal_principal =>
                     Qceiling ((totalLoan input - prepaymentAmount input)
                               / (totalLoan input / inject_Z (remainingPeriods input)))%Q
                 end <= remainingPeriods input)%Z).
  { destruct (repaymentMethod input); cbn [firstPayment].
    - apply calculateNewPeriods_le; try assumption.
      now apply getMonthlyRate_nonneg.
    - now apply ceiling_share_le. }
  repeat split; [exact Hle | lia].
Qed.

End ExactReduceTerm.

(** C6. In double precision the strategy [reduce_period] can lengthen the
    term.  With [totalLoan = 500000], [remainingPeriods = 29] and
    [prepaymentAmount = 0], which the form accepts, [500000 / 29] rounds to
    a double whose quotient into [500000] is just above [29], so [Math.ceil]
    returns [30]: [calculateMortgage] reports [newRemainingPeriods = 30] and
    [periodReduction = -1], under the method [equal_principal] (here at a
    4% rate) and, at a zero rate, under [equal_principal_interest] too.
    [Math.pow] is not called on either path. *)
Theorem reduce_period_lengthens_term_binary64
        (js_pow : PrimFloat.float -> Z -> PrimFloat.float) :
  let N := Binary64.number js_pow in
  let input method rate : MortgageInput PrimFloat.float :=
    {| totalLoan := Binary64.of_Z 500000; remainingPeriods := 29;
       annualRate := Binary64.of_Z rate; prepaymentAmount := Binary64.of_Z 0;
       repaymentMethod := method; prepaymentType := reduce_period |} in
  let outcome i :=
    option_map (fun res => (newRemainingPeriods res, periodReduction res))
               (calculateMortgage (H := N) i) in
  handleCalculateAccepts (H := N) (input equal_principal 4%Z) = true
  /\ outcome (input equal_principal 4%Z) = Some (30%Z, (-1)%Z)
  /\ handleCalculateAccepts (H := N) (input equal_principal_interest 0%Z) = true
  /\ outcome (input equal_principal_interest 0%Z) = Some (30%Z, (-1)%Z).
Proof. vm_compute. repeat split. Qed.

(** C3. In double precision the term reported under [reduce_period] with the
    method [equal_principal] can exceed [ceil (remainingPrincipal /
    (totalLoan / remainingPeriods))].  With [totalLoan = 100000],
    [remainingPeriods = 84] and [prepaymentAmount = 50000] (here at a 4%
    rate), which meet the caller preconditions, that quotient is exactly 42
    and its ceiling is 42, which is what the exact instance returns, with
    [periodReduction = 42]; but [100000 / 84] rounds to a double whose
    quotient into [50000] is just above 42, so [Math.ceil] returns 43 and
    [calculateMortgage] reports [newRemainingPeriods = 43] and
    [periodReduction = 41].  The principal component of the returned
    schedule is then [50000 / 43], not the original [100000 / 84].
    [Math.pow] is not called on this path. *)
Theorem reduce_period_equal_principal_term_binary64
        (js_pow : PrimFloat.float -> Z -> PrimFloat.float) :
  let N := Binary64.number js_pow in
  let outcome (num : Type) (M : Number num) :=
    option_map (fun res => (newRemainingPeriods res, periodReduction res))
               (calculateMortgage (H := M) (halvedLoanForm M)) in
  handleCalculateAccepts (H := N) (halvedLoanForm N) = true
  /\ outcome PrimFloat.float N = Some (43%Z, 41%Z)
  /\ option_map (fun res => map principal (firstn 1 (schedule res)))
                (calculateMortgage (H := N) (halvedLoanForm N))
     = Some [PrimFloat.div (Binary64.of_Z 50000) (Binary64.of_Z 43)]
  /\ callerPreconditions (halvedLoanForm exact)
  /\ ((100000 - 50000) / (100000 / inject_Z 84) == 42)%Q
  /\ Qceiling ((100000 - 50000) / (100000 / inject_Z 84)) = 42%Z
  /\ outcome Q exact = Some (42%Z, 42%Z).
Proof.
  cbv zeta. split; [vm_compute; reflexivity|]. split; [vm_compute; reflexivity|].
  split; [vm_compute; reflexivity|].
  split; [unfold callerPreconditions; cbn; repeat split; (reflexivity || discriminate)|].
  split; [reflexivity|]. split; vm_compute; reflexivity.
Qed.

(** C10. Some input the form accepts, with the strategy [reduce_period],
    gets a result whose [newMonthlyPayment], pinned to
    [originalMonthlyPayment], differs from the payment of the first entry of
    the returned schedule: with [totalLoan = 1200], 12 periods, a 12% rate,
    [prepaymentAmount = 600] and the method [equal_principal], the reported
    payment is 112 while the regenerated schedule opens with 106. *)
Theorem reduce_period_payment_differs_from_schedule :
  exists (input : MortgageInput Q) res first rest,
    handleCalculateAccepts input = true
    /\ prepaymentType input = reduce_period
    /\ calculateMortgage input = Some res
    /\ schedule res = first :: rest
    /\ newMonthlyPayment res = originalMonthlyPayment res
    /\ (newMonthlyPayment res == 112)%Q
    /\ (payment first == 106)%Q
    /\ ~ (newMonthlyPayment res == payment first)%Q.
Proof.
  exists {| totalLoan := 1200%Q; remainingPeriods := 12; annualRate := 12%Q;
            prepaymentAmount := 600%Q; repaymentMethod := equal_principal;
            prepaymentType := reduce_period |}.
  eexists. eexists. eexists.
  split; [reflexivity|]. split; [reflexivity|].
  split; [vm_compute; reflexivity|].
  split; [reflexivity|]. split; [reflexivity|].
  split; [reflexivity|]. split; [reflexivity|].
  intros Heq. vm_compute in Heq. discriminate Heq.
Qed.

(** * Further properties of the module, the form and the result panel *)

(** ** In any arithmetic *)

Section AnyArithmetic.

Context {num : Type} `{Number num}.

(** X1. Whatever the arithmetic, the entries of a generated schedule carry
    the period numbers [1, 2, .., periods], in this order. *)
Theorem schedule_periods_are_numbered method (principal monthlyRate : num) periods :
  map period (generateSchedule method principal monthlyRate periods)
  = map Z.of_nat (seq 1 (Z.to_nat periods)).
Proof.
  destruct method; cbn [generateSchedule];
    [rewrite generateEqualPaymentSchedule_unrolled
    | rewrite generateEqualPrincipalSchedule_unrolled];
    cbv zeta; unfold unrolled; rewrite map_map, <- seq_shift, map_map;
    apply map_ext; intros k; cbn [period equalPaymentEntry equalPrincipalEntry]; lia.
Qed.


End AnyArithmetic.

Section AnySearch.

Context {num : Type} `{Number num}.

(** X4. Whatever the arithmetic and whatever the amounts (zero, negative or
    not even numbers), when the rate fails the test [monthlyRate === 0] the
    term [calculateNewPeriods] returns lies in [1..1000]: the search never
    leaves its bounds. *)
Theorem calculateNewPeriods_within_bounds (principal monthlyRate monthlyPayment : num) :
  eqb monthlyRate (of_Z 0) = false ->
  (1 <= calculateNewPeriods principal monthlyRate monthlyPayment <= 1000)%Z.
Proof.
  intros Hrate. unfold calculateNewPeriods. rewrite Hrate.
  apply (bisect_range principal monthlyRate monthlyPayment (fuel := 1000)); lia.
Qed.

End AnySearch.

Lemma calculateNewPeriods_within_bounds_witness :
  (1 <= calculateNewPeriods 600%Q (1 # 100)%Q 112%Q <= 1000)%Z.
Proof.
  apply (@calculateNewPeriods_within_bounds Q exact 600%Q (1 # 100)%Q 112%Q).
  reflexivity.
Defined.

(** ** In exact arithmetic: what a schedule costs *)

Section ExactTotals.

Local Open Scope Q_scope.

Lemma totalInterest_equalPrincipal_unrolled (pp r P : Q) (count : nat) (i : Z) :
  calculateTotalInterest
    (unrolled (equalPrincipalNext pp) (equalPrincipalEntry pp r) count i P)
  == r * (inject_Z (Z.of_nat count) * P
          - pp * (inject_Z (Z.of_nat count) * (inject_Z (Z.of_nat count) - 1) / 2)).
Proof.
  unfold calculateTotalInterest, unrolled. induction count as [|count IH].
  - cbn. field.
  - rewrite seq_S, map_app, fold_left_app. cbn [map fold_left Nat.add interest
                                                  equalPrincipalEntry]. to_Q.
    rewrite IH, equalPrincipal_balance, inject_Z_succ. field.
Qed.

Lemma totalInterest_equalPayment_unrolled (M r P : Q) (count : nat) (i : Z) :
  calculateTotalInterest
    (unrolled (equalPaymentNext M r) (equalPaymentEntry M r) count i P)
  == inject_Z (Z.of_nat count) * M - (P - Nat.iter count (equalPaymentNext M r) P).
Proof.
  unfold calculateTotalInterest, unrolled. induction count as [|count IH].
  - cbn. ring.
  - rewrite seq_S, map_app, fold_left_app. cbn [map fold_left Nat.add interest
                                                  equalPaymentEntry]. to_Q.
    rewrite IH, inject_Z_succ, Nat.iter_succ. unfold equalPaymentNext at 3. to_Q.
    ring.
Qed.

Lemma totalPayment_split (l : list (PaymentSchedule Q)) :
  (forall e, In e l -> payment e == principal e + interest e) ->
  totalPayment l == totalPrincipal l + calculateTotalInterest l.
Proof.
  unfold totalPayment, totalPrincipal, calculateTotalInterest.
  induction l as [|e l IH] using rev_ind; intros Hrow.
  - cbn. ring.
  - rewrite !fold_left_app. cbn [fold_left]. to_Q.
    rewrite IH by (intros e' He'; apply Hrow, in_or_app; now left).
    rewrite (Hrow e) by (apply in_or_app; right; now left). ring.
Qed.

Lemma generated_principal_total method (P r : Q) (n : Z) :
  0 < P -> 0 <= r -> (1 <= n)%Z ->
  totalPrincipal (generateSchedule method P r n) == P.
Proof.
  intros HP Hr Hn. destruct method; cbn [generateSchedule].
  - rewrite generateEqualPaymentSchedule_unrolled. cbv zeta.
    rewrite totalPrincipal_unrolled by (intros j x; cbn; ring).
    destruct (equalPayment_amortises HP Hn Hr) as [_ Hend].
    cbv beta in Hend. rewrite Hend. ring.
  - rewrite generateEqualPrincipalSchedule_unrolled. cbv zeta.
    rewrite totalPrincipal_unrolled by (intros j x; cbn; ring).
    destruct (equalPrincipal_amortises HP Hn) as [_ Hend].
    cbv beta in Hend. to_Q. rewrite Hend. ring.
Qed.

Lemma generated_rows_add_up method (P r : Q) (n : Z) :
  forall e, In e (generateSchedule method P r n) ->
            payment e == principal e + interest e.
Proof.
  intros e He. apply In_nth_error in He as [k Hk].
  destruct method; cbn [generateSchedule] in Hk;
    [rewrite generateEqualPaymentSchedule_unrolled in Hk
    | rewrite generateEqualPrincipalSchedule_unrolled in Hk];
    cbv zeta in Hk; apply unrolled_nth_inv in Hk as [_ ->]; cbn; ring.
Qed.

Lemma generated_interest_total method (P r : Q) (n : Z) :
  0 < P -> 0 <= r -> (1 <= n)%Z ->
  calculateTotalInterest (generateSchedule method P r n)
  == match method with
     | equal_principal_interest => inject_Z n * calculateEqualPayment P r n - P
     | equal_principal => P * r * (inject_Z n + 1) / 2
     end.
Proof.
  intros HP Hr Hn. destruct method; cbn [generateSchedule].
  - rewrite generateEqualPaymentSchedule_unrolled. cbv zeta.
    rewrite totalInterest_equalPayment_unrolled, (periods_roundtrip Hn).
    destruct (equalPayment_amortises HP Hn Hr) as [_ Hend].
    cbv beta in Hend. rewrite Hend. ring.
  - rewrite generateEqualPrincipalSchedule_unrolled. cbv zeta.
    rewrite totalInterest_equalPrincipal_unrolled, (periods_roundtrip Hn). to_Q.
    pose proof (periods_pos Hn). field. lra.
Qed.

(** X6. In exact arithmetic, for [P > 0], [r >= 0] and an integer [n >= 1],
    the interest [calculateTotalInterest] sums over the equal-principal
    schedule is [P * r * (n + 1) / 2]. *)
Theorem equal_principal_total_interest (P r : Q) (n : Z) :
  0 < P -> 0 <= r -> (1 <= n)%Z ->
  calculateTotalInterest (generateEqualPrincipalSchedule P r n)
  == P * r * (inject_Z n + 1) / 2.
Proof.
  intros HP Hr Hn. rewrite generateEqualPrincipalSchedule_unrolled. cbv zeta.
  rewrite totalInterest_equalPrincipal_unrolled, (periods_roundtrip Hn). to_Q.
  pose proof (periods_pos Hn). field. lra.
Qed.

(** X7. In exact arithmetic, for [P > 0], [r >= 0] and an integer [n >= 1],
    the interest summed over the equal-payment schedule is what the [n]
    payments exceed the principal by, [n * calculateEqualPayment P r n - P]. *)
Theorem equal_payment_total_interest (P r : Q) (n : Z) :
  0 < P -> 0 <= r -> (1 <= n)%Z ->
  calculateTotalInterest (generateEqualPaymentSchedule P r n)
  == inject_Z n * calculateEqualPayment P r n - P.
Proof.
  intros HP Hr Hn. rewrite generateEqualPaymentSchedule_unrolled. cbv zeta.
  rewrite totalInterest_equalPayment_unrolled, (periods_roundtrip Hn).
  destruct (equalPayment_amortises HP Hn Hr) as [_ Hend].
  cbv beta in Hend. rewrite Hend. ring.
Qed.

(** X8. In exact arithmetic, for [P > 0], [r >= 0] and an integer [n >= 1],
    under either method the payments of the generated schedule add up to the
    principal plus the interest [calculateTotalInterest] reports. *)
Theorem payments_are_principal_plus_interest method (P r : Q) (n : Z) :
  0 < P -> 0 <= r -> (1 <= n)%Z ->
  totalPayment (generateSchedule method P r n)
  == P + calculateTotalInterest (generateSchedule method P r n).
Proof.
  intros HP Hr Hn.
  rewrite totalPayment_split by apply generated_rows_add_up.
  now rewrite generated_principal_total.
Qed.

End ExactTotals.

(** ** In exact arithmetic: the annuity payment and its schedule *)

Section ExactAnnuity.

Local Open Scope Q_scope.

(** The interest of the first period is part of the total. *)
Lemma totalInterest_equalPayment_lower (M r P : Q) (n count : nat) (i : Z) :
  0 <= r ->
  amortises (fun k => Nat.iter k (equalPaymentNext M r) P) n ->
  (1 <= count <= n)%nat ->
  P * r <= calculateTotalInterest
             (unrolled (equalPaymentNext M r) (equalPaymentEntry M r) count i P).
Proof.
  intros Hr HB. unfold calculateTotalInterest, unrolled.
  induction count as [|count IH]; intros Hcount; [lia|].
  rewrite seq_S, map_app, fold_left_app.
  cbn [map fold_left Nat.add interest equalPaymentEntry]. to_Q.
  destruct count as [|count].
  - cbn. lra.
  - assert (0 <= Nat.iter (S count) (equalPaymentNext M r) P)
      by (apply (amortises_le (k := S count) HB); lia).
    assert (0 <= Nat.iter (S count) (equalPaymentNext M r) P * r)
      by (apply Qmult_le_0_compat; assumption).
    specialize (IH ltac:(lia)). to_Q. lra.
Qed.

Lemma generated_interest_positive method (P r : Q) (n : Z) :
  0 < P -> 0 < r -> (1 <= n)%Z ->
  0 < calculateTotalInterest (generateSchedule method P r n).
Proof.
  intros HP Hrate Hn. pose proof (Qlt_le_weak _ _ Hrate) as Hr.
  assert (0 < P * r) by (apply Qmult_lt_0_compat; assumption).
  destruct method; cbn [generateSchedule].
  - rewrite generateEqualPaymentSchedule_unrolled. cbv zeta.
    pose proof (@totalInterest_equalPayment_lower
                  (calculateEqualPayment P r n) r P (Z.to_nat n) (Z.to_nat n) 1 Hr
                  (equalPayment_amortises HP Hn Hr) ltac:(lia)) as Hlow.
    lra.
  - rewrite (generated_interest_total equal_principal HP Hr Hn).
    assert (0 < P * r * (inject_Z n + 1))
      by (apply Qmult_lt_0_compat; [assumption | pose proof (periods_pos Hn); lra]).
    apply Qlt_shift_div_l; lra.
Qed.

Lemma equal_payment_above_share (P r : Q) (n : Z) :
  0 < P -> 0 < r -> (1 <= n)%Z ->
  P / inject_Z n < calculateEqualPayment P r n.
Proof.
  intros HP Hrate Hn. apply Qlt_shift_div_r; [exact (periods_pos Hn)|].
  pose proof (generated_interest_positive equal_principal_interest HP Hrate Hn) as Hsign.
  rewrite (generated_interest_total equal_principal_interest HP
             (Qlt_le_weak _ _ Hrate) Hn) in Hsign. lra.
Qed.

(** X9. In exact arithmetic, for [P > 0] and an integer [n >= 1], the total
    interest of either schedule is zero at a zero rate and positive at a
    positive rate. *)
Theorem total_interest_sign method (P r : Q) (n : Z) :
  0 < P -> 0 <= r -> (1 <= n)%Z ->
  (r == 0 -> calculateTotalInterest (generateSchedule method P r n) == 0)
  /\ (0 < r -> 0 < calculateTotalInterest (generateSchedule method P r n)).
Proof.
  intros HP Hr Hn. pose proof (periods_pos Hn) as Hpos. split.
  - intros Hzero. rewrite (generated_interest_total method HP Hr Hn).
    destruct method.
    + rewrite (calculateEqualPayment_zero_rate P n Hzero). field. lra.
    + rewrite Hzero. field.
  - intros Hrate. now apply generated_interest_positive.
Qed.

(** X10. In exact arithmetic, for [P > 0], a positive rate and an integer
    [n >= 1], the equal payment lies strictly above both the first interest
    [P * r] and the plain share [P / n], and never above [P * (1 + r)], the
    payment of a single period. *)
Theorem calculateEqualPayment_bounds (P r : Q) (n : Z) :
  0 < P -> 0 < r -> (1 <= n)%Z ->
  P * r < calculateEqualPayment P r n
  /\ P / inject_Z n < calculateEqualPayment P r n
  /\ calculateEqualPayment P r n <= P * (1 + r).
Proof.
  intros HP Hr Hn. pose proof (periods_pos Hn) as Hpos. split; [|split].
  - pose proof (annuity_excess_pos HP Hn Hr). lra.
  - now apply equal_payment_above_share.
  - apply Qle_trans with (calculateEqualPayment P r 1).
    + apply calculateEqualPayment_antitone; [exact HP | exact Hr | lia].
    + rewrite calculateEqualPayment_positive_rate by exact Hr.
      rewrite Qpower_1_r. apply Qle_lteq. right. field. lra.
Qed.

(** X11. In exact arithmetic, for [P > 0] and a positive rate, a longer
    term has a strictly smaller equal payment: this is the monotonicity the
    bisection of [calculateNewPeriods] relies on. *)
Theorem calculateEqualPayment_strictly_decreasing (P r : Q) (m m' : Z) :
  0 < P -> 0 < r -> (1 <= m < m')%Z ->
  calculateEqualPayment P r m' < calculateEqualPayment P r m.
Proof.
  intros HP Hr [Hm Hmm'].
  assert (Hm' : (1 <= m')%Z) by lia.
  pose proof (annuity_excess P Hm Hr) as E.
  pose proof (annuity_excess P Hm' Hr) as E'.
  pose proof (annuity_excess_pos HP Hm' Hr) as Hc'.
  pose proof (annuity_denominator_pos (n := m) Hm Hr) as HD.
  assert (Hpow : (1 + r) ^ m < (1 + r) ^ m') by (apply Qpower_lt_compat_l; [lia | lra]).
  set (c := calculateEqualPayment P r m - P * r) in *.
  set (c' := calculateEqualPayment P r m' - P * r) in *.
  assert (Hlt : c' * ((1 + r) ^ m - 1) < c * ((1 + r) ^ m - 1)).
  { rewrite E, <- E'. apply Qmult_lt_l; [exact Hc' | lra]. }
  apply Qmult_lt_r in Hlt; [|exact HD].
  subst c c'. lra.
Qed.

(** X12. In exact arithmetic, for a rate [r >= 0] and an integer [n >= 1],
    the equal payment is proportional to the principal. *)
Theorem calculateEqualPayment_proportional (k P r : Q) (n : Z) :
  0 <= r -> (1 <= n)%Z ->
  calculateEqualPayment (k * P) r n == k * calculateEqualPayment P r n.
Proof.
  intros Hr Hn. unfold calculateEqualPayment. to_Q.
  destruct (Qeq_bool r 0); unfold Qdiv; ring.
Qed.

(** X13. In exact arithmetic, for [P > 0], [r >= 0] and an integer
    [n >= 1], along the equal-payment schedule the interest component never
    increases and the principal component never decreases from one period to
    the next; at a positive rate both changes are strict. *)
Theorem equal_payment_components_monotone (P r : Q) (n : Z) :
  0 < P -> 0 <= r -> (1 <= n)%Z ->
  let s := generateEqualPaymentSchedule P r n in
  nonIncreasing interest s
  /\ nonDecreasing principal s
  /\ (0 < r -> strictlyDecreasing interest s /\ strictlyIncreasing principal s).
Proof.
  intros HP Hr Hn s. subst s.
  rewrite generateEqualPaymentSchedule_unrolled. cbv zeta.
  set (M := calculateEqualPayment P r n).
  assert (Hstep : forall k e1 e2,
             nth_error (unrolled (equalPaymentNext M r) (equalPaymentEntry M r)
                                 (Z.to_nat n) 1 P) k = Some e1 ->
             nth_error (unrolled (equalPaymentNext M r) (equalPaymentEntry M r)
                                 (Z.to_nat n) 1 P) (S k) = Some e2 ->
             exists b1 b2,
               b2 < b1
               /\ interest e1 = b1 * r /\ interest e2 = b2 * r
               /\ principal e1 = M - b1 * r /\ principal e2 = M - b2 * r).
  { intros k e1 e2 H1 H2.
    apply unrolled_nth_inv in H1 as [_ ->].
    apply unrolled_nth_inv in H2 as [Hk ->].
    destruct (equalPayment_amortises HP Hn Hr) as [Hdec _].
    specialize (Hdec k ltac:(lia)). cbv beta in Hdec. fold M in Hdec.
    eexists _, _. split; [exact Hdec|]. repeat split. }
  repeat split.
  - intros k e1 e2 H1 H2.
    destruct (Hstep k e1 e2 H1 H2) as (b1 & b2 & Hb & -> & -> & _).
    apply Qmult_le_compat_r; lra.
  - intros k e1 e2 H1 H2.
    destruct (Hstep k e1 e2 H1 H2) as (b1 & b2 & Hb & _ & _ & -> & ->).
    assert (b2 * r <= b1 * r) by (apply Qmult_le_compat_r; lra). lra.
  - intros k e1 e2 H1 H2.
    destruct (Hstep k e1 e2 H1 H2) as (b1 & b2 & Hb & -> & -> & _).
    apply Qmult_lt_compat_r; assumption.
  - intros k e1 e2 H1 H2.
    destruct (Hstep k e1 e2 H1 H2) as (b1 & b2 & Hb & _ & _ & -> & ->).
    assert (b2 * r < b1 * r) by (apply Qmult_lt_compat_r; assumption). lra.
Qed.

End ExactAnnuity.

(** ** In exact arithmetic: how many periods remain *)

Section ExactTerm.

Local Open Scope Q_scope.

Lemma Qdiv_cancel (a c : Q) : 0 < c -> a / c * c == a.
Proof. intros Hc. field. lra. Qed.

(** The ceiling of a positive quotient [a / c] is the least count of [c]'s
    that covers [a]. *)
Lemma ceiling_quotient (a c : Q) :
  0 < a -> 0 < c ->
  (1 <= Qceiling (a / c))%Z
  /\ a <= inject_Z (Qceiling (a / c)) * c
  /\ inject_Z (Qceiling (a / c) - 1) * c < a.
Proof.
  intros Ha Hc.
  pose proof (Qle_ceiling (a / c)) as Hup.
  pose proof (Qceiling_lt (a / c)) as Hdown.
  assert (Hquot : 0 < a / c) by (apply Qlt_shift_div_l; lra).
  split; [|split].
  - assert (Hpos : inject_Z 0 < inject_Z (Qceiling (a / c))) by (change (inject_Z 0) with 0; lra).
    rewrite <- Zlt_Qlt in Hpos. lia.
  - rewrite <- (Qdiv_cancel a Hc) at 1. apply Qmult_le_compat_r; lra.
  - rewrite <- (Qdiv_cancel a Hc) at 2. apply Qmult_lt_compat_r; assumption.
Qed.

(** X14. In exact arithmetic, at a zero rate and for [P > 0] and a target
    payment [> 0], the term [t] that [calculateNewPeriods] returns is the
    least number of payments that covers the principal: [t >= 1],
    [P <= t * target] and [(t - 1) * target < P]. *)
Theorem calculateNewPeriods_zero_rate (P r target : Q) :
  0 < P -> 0 < target -> r == 0 ->
  let t := calculateNewPeriods P r target in
  (1 <= t)%Z
  /\ P <= inject_Z t * target
  /\ inject_Z (t - 1) * target < P.
Proof.
  intros HP Htarget Hr t. subst t. unfold calculateNewPeriods. to_Q.
  apply Qeq_bool_iff in Hr. rewrite Hr. now apply ceiling_quotient.
Qed.

End ExactTerm.

Lemma calculateNewPeriods_zero_rate_witness :
  (1 <= calculateNewPeriods 1000%Q 0%Q 300%Q)%Z
  /\ (1000 <= inject_Z (calculateNewPeriods 1000%Q 0%Q 300%Q) * 300)%Q
  /\ (inject_Z (calculateNewPeriods 1000%Q 0%Q 300%Q - 1) * 300 < 1000)%Q.
Proof.
  apply (@calculateNewPeriods_zero_rate 1000%Q 0%Q 300%Q); reflexivity.
Defined.

(** ** In exact arithmetic: interest against principal and term *)

Section ExactInterestOrder.

Local Open Scope Q_scope.

Lemma calculateEqualPayment_scale (P r : Q) (n : Z) :
  calculateEqualPayment P r n == P * calculateEqualPayment 1 r n.
Proof.
  unfold calculateEqualPayment. to_Q. destruct (Qeq_bool r 0); unfold Qdiv; ring.
Qed.

Lemma calculateEqualPayment_pos (P r : Q) (n : Z) :
  0 < P -> 0 <= r -> (1 <= n)%Z -> 0 < calculateEqualPayment P r n.
Proof.
  intros HP Hr Hn. destruct (Qle_lt_or_eq _ _ Hr) as [Hrate|Hzero].
  - pose proof (annuity_excess_pos HP Hn Hrate).
    assert (0 < P * r) by (apply Qmult_lt_0_compat; assumption). lra.
  - symmetry in Hzero. rewrite (calculateEqualPayment_zero_rate P n Hzero).
    now apply principal_share_pos.
Qed.

Lemma generated_interest_nonneg method (P r : Q) (n : Z) :
  0 < P -> 0 <= r -> (1 <= n)%Z ->
  0 <= calculateTotalInterest (generateSchedule method P r n).
Proof.
  intros HP Hr Hn. destruct (Qle_lt_or_eq _ _ Hr) as [Hrate|Hzero].
  - apply Qlt_le_weak. now apply generated_interest_positive.
  - symmetry in Hzero. rewrite (generated_interest_total method HP Hr Hn).
    pose proof (periods_pos Hn). destruct method.
    + rewrite (calculateEqualPayment_zero_rate P n Hzero).
      apply Qle_lteq. right. field. lra.
    + rewrite Hzero. apply Qle_lteq. right. field.
Qed.

Lemma generated_interest_scales method (P r : Q) (n : Z) :
  0 < P -> 0 <= r -> (1 <= n)%Z ->
  calculateTotalInterest (generateSchedule method P r n)
  == P * calculateTotalInterest (generateSchedule method 1 r n).
Proof.
  intros HP Hr Hn.
  rewrite (generated_interest_total method HP Hr Hn).
  rewrite (@generated_interest_total method 1 r n) by (assumption || reflexivity).
  destruct method.
  - rewrite (calculateEqualPayment_scale P). ring.
  - field.
Qed.

(** Less principal, less interest. *)
Lemma interest_le_principal method (P P' r : Q) (n : Z) :
  0 < P' -> P' <= P -> 0 <= r -> (1 <= n)%Z ->
  calculateTotalInterest (generateSchedule method P' r n)
  <= calculateTotalInterest (generateSchedule method P r n).
Proof.
  intros HP' HP Hr Hn.
  rewrite (@generated_interest_scales method P' r n) by assumption.
  rewrite (@generated_interest_scales method P r n) by (assumption || lra).
  apply Qmult_le_compat_r; [exact HP|].
  apply generated_interest_nonneg; (assumption || reflexivity).
Qed.

Lemma interest_lt_principal method (P P' r : Q) (n : Z) :
  0 < P' -> P' < P -> 0 < r -> (1 <= n)%Z ->
  calculateTotalInterest (generateSchedule method P' r n)
  < calculateTotalInterest (generateSchedule method P r n).
Proof.
  intros HP' HP Hr Hn. pose proof (Qlt_le_weak _ _ Hr) as Hr0.
  rewrite (@generated_interest_scales method P' r n) by assumption.
  rewrite (@generated_interest_scales method P r n) by (assumption || lra).
  apply Qmult_lt_compat_r; [|exact HP].
  apply generated_interest_positive; (assumption || reflexivity).
Qed.

Lemma bernoulli (r : Q) (m : nat) :
  0 <= r -> 1 + inject_Z (Z.of_nat m) * r <= (1 + r) ^ Z.of_nat m.
Proof.
  intros Hr. induction m as [|m IH].
  - change ((1 + r) ^ Z.of_nat 0) with 1.
    change (inject_Z (Z.of_nat 0)) with 0. lra.
  - rewrite Qpower_succ by lra. rewrite inject_Z_succ.
    assert (Hm : 0 <= inject_Z (Z.of_nat m))
      by (change 0 with (inject_Z 0); rewrite <- Zle_Qle; lia).
    assert (0 <= inject_Z (Z.of_nat m) * r * r)
      by (repeat apply Qmult_le_0_compat; assumption).
    assert ((1 + inject_Z (Z.of_nat m) * r) * (1 + r)
            <= (1 + r) ^ Z.of_nat m * (1 + r))
      by (apply Qmult_le_compat_r; lra).
    lra.
Qed.

(** One more period never lowers the sum of the payments. *)
Lemma payments_total_step (P r : Q) (m : Z) :
  0 < P -> 0 < r -> (1 <= m)%Z ->
  inject_Z m * calculateEqualPayment P r m
  <= inject_Z (m + 1) * calculateEqualPayment P r (m + 1).
Proof.
  intros HP Hr Hm.
  rewrite !calculateEqualPayment_positive_rate by exact Hr.
  assert (Hq : 0 < 1 + r) by lra.
  assert (Hpow : (1 + r) ^ (m + 1) == (1 + r) ^ m * (1 + r)).
  { rewrite Qpower_plus by lra. now rewrite Qpower_1_r. }
  pose proof (annuity_denominator_pos (n := m) Hm Hr) as HD.
  pose proof (annuity_denominator_pos (n := m + 1) ltac:(lia) Hr) as HD'.
  pose proof (@bernoulli r (Z.to_nat (m + 1)) (Qlt_le_weak _ _ Hr)) as HB.
  rewrite Z2Nat.id in HB by lia.
  rewrite Hpow in *. rewrite inject_Z_plus in *. change (inject_Z 1) with 1 in *.
  set (x := (1 + r) ^ m) in *. set (mq := inject_Z m) in *.
  assert (Hmq : 0 < mq)
    by (subst mq; change 0 with (inject_Z 0); rewrite <- Zlt_Qlt; lia).
  assert (Hx : 0 < x) by lra.
  assert (HPrx : 0 < P * r * x) by (repeat apply Qmult_lt_0_compat; assumption).
  assert (Hgap : 0 <= P * r * x * (x * (1 + r) - 1 - (mq + 1) * r))
    by (apply Qmult_le_0_compat; lra).
  setoid_replace ((mq + 1) * (P * (r * (x * (1 + r))) / (x * (1 + r) - 1)))
    with ((mq + 1) * (P * (r * (x * (1 + r)))) / (x * (1 + r) - 1)) by (field; lra).
  apply Qle_shift_div_l; [exact HD'|].
  setoid_replace (mq * (P * (r * x) / (x - 1)) * (x * (1 + r) - 1))
    with (mq * (P * (r * x)) * (x * (1 + r) - 1) / (x - 1)) by (field; lra).
  apply Qle_shift_div_r; [exact HD|]. lra.
Qed.

Lemma payments_total_le (P r : Q) (t : Z) (gap : nat) :
  0 < P -> 0 < r -> (1 <= t)%Z ->
  inject_Z t * calculateEqualPayment P r t
  <= inject_Z (t + Z.of_nat gap) * calculateEqualPayment P r (t + Z.of_nat gap).
Proof.
  intros HP Hr Ht. induction gap as [|gap IH].
  - rewrite Z.add_0_r. apply Qle_refl.
  - eapply Qle_trans; [exact IH|].
    replace (t + Z.of_nat (S gap))%Z with (t + Z.of_nat gap + 1)%Z by lia.
    apply payments_total_step; [assumption | assumption | lia].
Qed.

(** A shorter term, less interest. *)
Lemma interest_le_term method (P r : Q) (t n : Z) :
  0 < P -> 0 <= r -> (1 <= t <= n)%Z ->
  calculateTotalInterest (generateSchedule method P r t)
  <= calculateTotalInterest (generateSchedule method P r n).
Proof.
  intros HP Hr [Ht Htn].
  rewrite (@generated_interest_total method P r t) by assumption.
  rewrite (@generated_interest_total method P r n) by (assumption || lia).
  destruct method.
  - destruct (Qle_lt_or_eq _ _ Hr) as [Hrate|Hzero].
    + pose proof (@payments_total_le P r t (Z.to_nat (n - t)) HP Hrate Ht) as Hle.
      replace (t + Z.of_nat (Z.to_nat (n - t)))%Z with n in Hle by lia. lra.
    + symmetry in Hzero.
      rewrite !(calculateEqualPayment_zero_rate P _ Hzero).
      pose proof (principal_share_total P Ht).
      pose proof (@principal_share_total P n ltac:(lia)). lra.
  - assert (inject_Z t <= inject_Z n) by (rewrite <- Zle_Qle; lia).
    assert (0 <= P * r) by (apply Qmult_le_0_compat; lra).
    assert ((inject_Z t + 1) * (P * r) <= (inject_Z n + 1) * (P * r))
      by (apply Qmult_le_compat_r; lra).
    unfold Qdiv. apply Qmult_le_compat_r; [lra|].
    apply Qinv_le_0_compat. lra.
Qed.

End ExactInterestOrder.

(** ** In exact arithmetic: the result under the caller preconditions *)

Section ExactResult.

Local Open Scope Q_scope.

Lemma getMonthlyRate_pos (annualRate : Q) :
  0 < annualRate -> 0 < getMonthlyRate annualRate.
Proof.
  intros Hrate. unfold getMonthlyRate. to_Q.
  change (inject_Z 100) with 100. change (inject_Z 12) with 12.
  unfold Qdiv. repeat apply Qmult_lt_0_compat; try exact Hrate;
    apply Qinv_lt_0_compat; lra.
Qed.

Lemma reduced_term_bounds method (L p r : Q) (n : Z) :
  0 < L -> 0 <= p -> p < L -> 0 <= r -> (1 <= n)%Z ->
  (1 <= match method with
        | equal_principal_interest =>
            calculateNewPeriods (L - p)%Q r (firstPayment method L r n)
        | equal_principal => Qceiling ((L - p) / (L / inject_Z n))%Q
        end <= n)%Z.
Proof.
  intros HL Hp HpL Hr Hn. assert (HP' : 0 < L - p) by lra.
  destruct method; cbn [firstPayment]; split.
  - unfold calculateNewPeriods. to_Q. destruct (Qeq_bool r 0) eqn:Hrate.
    + apply ceiling_quotient; [exact HP' | now apply calculateEqualPayment_pos].
    + apply (bisect_range (L - p) r (calculateEqualPayment L r n) (fuel := 1000)); lia.
  - now apply calculateNewPeriods_le.
  - apply ceiling_quotient; [exact HP' | now apply principal_share_pos].
  - now apply ceiling_share_le.
Qed.

(** The result under the caller preconditions, field by field, with the new
    term [t]. *)
Lemma accepted_result_shape (input : MortgageInput Q) :
  callerPreconditions input ->
  exists res t,
    calculateMortgage input = Some res
    /\ (1 <= t <= remainingPeriods input)%Z
    /\ newRemainingPeriods res = t
    /\ periodReduction res = (remainingPeriods input - t)%Z
    /\ schedule res
       = generateSchedule (repaymentMethod input)
                          (totalLoan input - prepaymentAmount input)
                          (getMonthlyRate (annualRate input)) t
    /\ totalInterestNew res = calculateTotalInterest (schedule res)
    /\ totalInterestOriginal res
       = calculateTotalInterest
           (generateSchedule (repaymentMethod input) (totalLoan input)
                             (getMonthlyRate (annualRate input))
                             (remainingPeriods input))
    /\ interestSavings res = totalInterestOriginal res - totalInterestNew res
    /\ originalMonthlyPayment res
       = firstPayment (repaymentMethod input) (totalLoan input)
                      (getMonthlyRate (annualRate input)) (remainingPeriods input)
    /\ match prepaymentType input with
       | reduce_payment =>
           t = remainingPeriods input
           /\ newMonthlyPayment res
              = firstPayment (repaymentMethod input)
                             (totalLoan input - prepaymentAmount input)
                             (getMonthlyRate (annualRate input)) t
       | reduce_period =>
           t = match repaymentMethod input with
               | equal_principal_interest =>
                   calculateNewPeriods
                     (totalLoan input - prepaymentAmount input)
                     (getMonthlyRate (annualRate input))
                     (firstPayment (repaymentMethod input) (totalLoan input)
                                   (getMonthlyRate (annualRate input))
                                   (remainingPeriods input))
               | equal_principal =>
                   Qceiling ((totalLoan input - prepaymentAmount input)
                             / (totalLoan input / inject_Z (remainingPeriods input)))
               end
           /\ newMonthlyPayment res = originalMonthlyPayment res
       end.
Proof.
  intros (HL & Hn & Hrate & Hp & HpL).
  assert (Hleb : leb (sub (totalLoan input) (prepaymentAmount input)) (of_Z 0) = false)
    by (to_Q; apply Qle_bool_false_iff; lra).
  destruct (prepaymentType input) eqn:Htype.
  - rewrite (calculateMortgage_reduce_payment input Hn Hleb Htype). cbv zeta.
    eexists _, (remainingPeriods input). split; [reflexivity|].
    split; [lia|]. cbn. to_Q. repeat split. lia.
  - rewrite (calculateMortgage_reduce_period input Hn Hleb Htype). cbv zeta.
    eexists _, _. split; [reflexivity|]. split.
    + to_Q. exact (reduced_term_bounds (repaymentMethod input) HL Hp HpL
                                      (getMonthlyRate_nonneg Hrate) Hn).
    + cbn. to_Q. repeat split.
Qed.

(** X15. In exact arithmetic, an input that satisfies the caller
    preconditions ([totalLoan > 0], an integer [remainingPeriods >= 1],
    [annualRate >= 0], [0 <= prepaymentAmount < totalLoan]) never takes the
    paid-off exit: the result has [newRemainingPeriods >= 1] and a non-empty
    schedule, so the panel does not render the notice for
    [schedule.length === 0]; and it renders the period-change card exactly
    when the strategy is [reduce_period] and the new term is below the
    original one. *)
Theorem accepted_form_gets_schedule (input : MortgageInput Q) :
  callerPreconditions input ->
  exists res,
    calculateMortgage input = Some res
    /\ (1 <= newRemainingPeriods res)%Z
    /\ schedule res <> []
    /\ paidOffNoticeShown res = false
    /\ (periodChangeShown input res = true
        <-> prepaymentType input = reduce_period
            /\ (newRemainingPeriods res < remainingPeriods input)%Z).
Proof.
  intros Hvalid.
  destruct (@accepted_result_shape input Hvalid)
    as (res & t & Hres & Ht & Hnew & Hred & Hsched & _).
  exists res. split; [exact Hres|]. rewrite Hnew. split; [lia|].
  assert (Hlen : length (schedule res) = Z.to_nat t)
    by (rewrite Hsched; apply generateSchedule_length).
  split; [|split].
  - intros Hnil. rewrite Hnil in Hlen. cbn in Hlen. lia.
  - unfold paidOffNoticeShown. apply Nat.eqb_neq. lia.
  - unfold periodChangeShown. rewrite Hred.
    destruct (prepaymentType input).
    + split; [discriminate | intros [Habs _]; discriminate Habs].
    + rewrite Z.gtb_ltb, Z.ltb_lt. split; [intros Hlt; split; [reflexivity | lia]|].
      intros [_ Hlt]. lia.
Qed.

End ExactResult.

(** ** When [calculateMortgage] returns, and what the form does with it *)

Section ExactOutcome.

Local Open Scope Q_scope.

(** The term computed under [reduce_period] is at least one period whenever
    the remaining principal is positive. *)
Lemma reduced_term_pos method (L P' r : Q) (n : Z) :
  0 < L -> 0 < P' -> 0 <= r -> (1 <= n)%Z ->
  (1 <= match method with
        | equal_principal_interest =>
            calculateNewPeriods P' r (firstPayment method L r n)
        | equal_principal => Qceiling (P' / (L / inject_Z n))
        end)%Z.
Proof.
  intros HL HP' Hr Hn. destruct method; cbn [firstPayment].
  - unfold calculateNewPeriods. to_Q. destruct (Qeq_bool r 0) eqn:Hrate.
    + apply ceiling_quotient; [exact HP' | now apply calculateEqualPayment_pos].
    + apply (bisect_range P' r (calculateEqualPayment L r n) (fuel := 1000)); lia.
  - apply ceiling_quotient; [exact HP' | now apply principal_share_pos].
Qed.

Lemma calculateMortgage_consistent (input : MortgageInput Q) :
  0 < totalLoan input -> (1 <= remainingPeriods input)%Z -> 0 <= annualRate input ->
  exists res,
    calculateMortgage input = Some res
    /\ periodReduction res = (remainingPeriods input - newRemainingPeriods res)%Z
    /\ Z.of_nat (length (schedule res)) = newRemainingPeriods res
    /\ totalInterestNew res = calculateTotalInterest (schedule res)
    /\ originalMonthlyPayment res
       = firstPayment (repaymentMethod input) (totalLoan input)
                      (getMonthlyRate (annualRate input)) (remainingPeriods input)
    /\ totalInterestOriginal res
       = calculateTotalInterest
           (generateSchedule (repaymentMethod input) (totalLoan input)
                             (getMonthlyRate (annualRate input)) (remainingPeriods input)).
Proof.
  intros HL Hn Hrate.
  destruct (leb (sub (totalLoan input) (prepaymentAmount input)) (of_Z 0)) eqn:Hleb.
  - rewrite (calculateMortgage_paid_off input Hn Hleb).
    eexists. split; [reflexivity|]. cbn. repeat split. lia.
  - destruct (prepaymentType input) eqn:Htype.
    + rewrite (calculateMortgage_reduce_payment input Hn Hleb Htype). cbv zeta.
      eexists. split; [reflexivity|]. cbn. repeat split; [lia|].
      rewrite generateSchedule_length. lia.
    + rewrite (calculateMortgage_reduce_period input Hn Hleb Htype). cbv zeta.
      eexists. split; [reflexivity|]. cbn. repeat split.
      rewrite generateSchedule_length.
      assert (HP' : 0 < totalLoan input - prepaymentAmount input)
        by (to_Q; now apply Qle_bool_false_iff in Hleb).
      pose proof (reduced_term_pos (repaymentMethod input) HL HP'
                    (getMonthlyRate_nonneg Hrate) Hn) as Hterm.
      unfold getMonthlyRate in Hterm. to_Q. lia.
Qed.

End ExactOutcome.



(** X3. In exact arithmetic, for [totalLoan > 0], an integer
    [remainingPeriods >= 1] and [annualRate >= 0] (whatever the prepayment),
    [calculateMortgage] returns a result that is consistent across its three
    exits: [periodReduction] is [remainingPeriods - newRemainingPeriods], the
    schedule has exactly [newRemainingPeriods] entries (none at the paid-off
    exit, where the term is 0), [totalInterestNew] is the interest summed
    over the returned schedule, and [originalMonthlyPayment] and
    [totalInterestOriginal] are those of the schedule over
    [(totalLoan, monthlyRate, remainingPeriods)], independent of the
    prepayment amount and strategy. *)
Theorem calculateMortgage_result_consistent (input : MortgageInput Q) :
  (0 < totalLoan input)%Q -> (1 <= remainingPeriods input)%Z ->
  (0 <= annualRate input)%Q ->
  exists res,
    calculateMortgage input = Some res
    /\ periodReduction res = (remainingPeriods input - newRemainingPeriods res)%Z
    /\ Z.of_nat (length (schedule res)) = newRemainingPeriods res
    /\ totalInterestNew res = calculateTotalInterest (schedule res)
    /\ originalMonthlyPayment res
       = firstPayment (repaymentMethod input) (totalLoan input)
                      (getMonthlyRate (annualRate input)) (remainingPeriods input)
    /\ totalInterestOriginal res
       = calculateTotalInterest
           (generateSchedule (repaymentMethod input) (totalLoan input)
                             (getMonthlyRate (annualRate input)) (remainingPeriods input)).
Proof. apply calculateMortgage_consistent. Qed.

Lemma calculateMortgage_result_consistent_witness :
  exists res,
    calculateMortgage (sampleForm equal_principal reduce_period) = Some res
    /\ periodReduction res = (12 - newRemainingPeriods res)%Z
    /\ Z.of_nat (length (schedule res)) = newRemainingPeriods res
    /\ totalInterestNew res = calculateTotalInterest (schedule res)
    /\ originalMonthlyPayment res
       = firstPayment equal_principal 1200%Q (getMonthlyRate 12%Q) 12
    /\ totalInterestOriginal res
       = calculateTotalInterest
           (generateSchedule equal_principal 1200%Q (getMonthlyRate 12%Q) 12).
Proof.
  apply (@calculateMortgage_result_consistent (sampleForm equal_principal reduce_period));
    [reflexivity | cbn; lia | discriminate].
Defined.


Section ExactSavings.

Local Open Scope Q_scope.

Lemma generated_interest_zero method (P r : Q) (n : Z) :
  0 < P -> r == 0 -> (1 <= n)%Z ->
  calculateTotalInterest (generateSchedule method P r n) == 0.
Proof.
  intros HP Hzero Hn.
  assert (Hr : 0 <= r) by (rewrite Hzero; apply Qle_refl).
  rewrite (generated_interest_total method HP Hr Hn).
  pose proof (periods_pos Hn). destruct method.
  - rewrite (calculateEqualPayment_zero_rate P n Hzero). field. lra.
  - rewrite Hzero. field.
Qed.

Lemma getMonthlyRate_zero (annualRate : Q) :
  annualRate == 0 -> getMonthlyRate annualRate == 0.
Proof.
  intros Hzero. unfold getMonthlyRate. to_Q. rewrite Hzero.
  change (inject_Z 100) with 100. change (inject_Z 12) with 12. field.
Qed.

(** The interest of the new schedule against that of the original one. *)
Lemma accepted_interest_order (input : MortgageInput Q) :
  callerPreconditions input ->
  exists res,
    calculateMortgage input = Some res
    /\ interestSavings res = totalInterestOriginal res - totalInterestNew res
    /\ 0 <= totalInterestNew res
    /\ totalInterestNew res <= totalInterestOriginal res
    /\ (annualRate input == 0 -> totalInterestOriginal res == 0)
    /\ (0 < annualRate input -> 0 < totalInterestOriginal res)
    /\ (0 < annualRate input -> 0 < prepaymentAmount input ->
        totalInterestNew res < totalInterestOriginal res).
Proof.
  intros Hvalid.
  destruct (@accepted_result_shape input Hvalid)
    as (res & t & Hres & Ht & _ & _ & Hsched & Hnew & Horig & Hsave & _).
  destruct Hvalid as (HL & Hn & Hrate & Hp & HpL).
  pose proof (getMonthlyRate_nonneg Hrate) as Hr.
  assert (HP' : 0 < totalLoan input - prepaymentAmount input) by lra.
  exists res. split; [exact Hres|]. split; [exact Hsave|].
  rewrite Hnew, Horig, Hsched.
  pose proof (@interest_le_term (repaymentMethod input) _ _ t
                (remainingPeriods input) HP' Hr Ht) as Hterm.
  split; [apply generated_interest_nonneg; (assumption || lia)|].
  split; [|split; [|split]].
  - eapply Qle_trans; [exact Hterm|].
    apply interest_le_principal; (assumption || lra).
  - intros Hzero. apply generated_interest_zero;
      [exact HL | now apply getMonthlyRate_zero | exact Hn].
  - intros Hpos. apply generated_interest_positive;
      [exact HL | now apply getMonthlyRate_pos | exact Hn].
  - intros Hpos Hprepaid. eapply Qle_lt_trans; [exact Hterm|].
    apply interest_lt_principal;
      [exact HP' | lra | now apply getMonthlyRate_pos | exact Hn].
Qed.

(** X16. In exact arithmetic, for an input that satisfies the caller
    preconditions (with an integer [remainingPeriods >= 1]) and has a
    positive prepayment, under both strategies and both methods, the
    prepayment never costs interest: the new schedule's total interest lies between 0 and the
    original one's, so [interestSavings >= 0]; the savings are zero at a zero
    rate and positive at a positive rate. *)
Theorem prepayment_saves_interest (input : MortgageInput Q) :
  callerPreconditions input ->
  0 < prepaymentAmount input ->
  exists res,
    calculateMortgage input = Some res
    /\ 0 <= totalInterestNew res <= totalInterestOriginal res
    /\ 0 <= interestSavings res
    /\ (annualRate input == 0 -> interestSavings res == 0)
    /\ (0 < annualRate input -> 0 < interestSavings res).
Proof.
  intros Hvalid Hprepaid.
  destruct (@accepted_interest_order input Hvalid)
    as (res & Hres & Hsave & Hnonneg & Hle & Hzero & _ & Hstrict).
  exists res. split; [exact Hres|]. split; [split; assumption|].
  rewrite Hsave. split; [lra|]. split.
  - intros Hrate. specialize (Hzero Hrate). lra.
  - intros Hrate. specialize (Hstrict Hrate Hprepaid). lra.
Qed.

(** X17. In exact arithmetic, for an input that satisfies the caller
    preconditions (with an integer [remainingPeriods >= 1]) and has a
    positive rate and a positive prepayment, the savings percentage the panel
    computes, [interestSavings / totalInterestOriginal * 100], divides by a
    positive total and lies above 0 and at most at 100. *)
Theorem savings_ratio_is_a_percentage (input : MortgageInput Q) :
  callerPreconditions input ->
  0 < annualRate input ->
  0 < prepaymentAmount input ->
  exists res,
    calculateMortgage input = Some res
    /\ 0 < totalInterestOriginal res
    /\ 0 < savingsRatio res <= 100.
Proof.
  intros Hvalid Hrate Hprepaid.
  destruct (@accepted_interest_order input Hvalid)
    as (res & Hres & Hsave & Hnonneg & Hle & _ & Hpos & Hstrict).
  specialize (Hpos Hrate). specialize (Hstrict Hrate Hprepaid).
  exists res. split; [exact Hres|]. split; [exact Hpos|].
  unfold savingsRatio. to_Q. rewrite Hsave. change (inject_Z 100) with 100.
  assert (Hlow : 0 < (totalInterestOriginal res - totalInterestNew res)
                     / totalInterestOriginal res)
    by (apply Qlt_shift_div_l; lra).
  assert (Hhigh : (totalInterestOriginal res - totalInterestNew res)
                  / totalInterestOriginal res <= 1)
    by (apply Qle_shift_div_r; lra).
  split; lra.
Qed.

End ExactSavings.

Section ExactHeldPayment.

Local Open Scope Q_scope.

(** When the original term is within the search range, the term found has a
    payment within the payment held. *)
Lemma calculateNewPeriods_affordable (L p r : Q) (n : Z) :
  0 < L -> 0 <= p -> p < L -> 0 <= r -> (1 <= n <= 1000)%Z ->
  calculateEqualPayment (L - p) r
    (calculateNewPeriods (L - p) r (calculateEqualPayment L r n))
  <= calculateEqualPayment L r n.
Proof.
  intros HL Hp HpL Hr [Hn Hcap]. assert (HP : 0 < L - p) by lra.
  pose proof (calculateEqualPayment_pos HL Hr Hn) as HM.
  unfold calculateNewPeriods. to_Q.
  destruct (Qeq_bool r 0) eqn:Hrate.
  - apply Qeq_bool_iff in Hrate.
    destruct (ceiling_quotient HP HM) as (Hone & Hcover & _).
    set (t := Qceiling ((L - p) / calculateEqualPayment L r n)) in *.
    rewrite (calculateEqualPayment_zero_rate (L - p) t Hrate).
    apply Qle_shift_div_r; [now apply periods_pos | rewrite Qmult_comm; exact Hcover].
  - assert (Hpos : 0 < r).
    { destruct (Qle_lt_or_eq _ _ Hr) as [Hlt|Heq]; [exact Hlt|].
      symmetry in Heq. apply Qeq_bool_iff in Heq. congruence. }
    destruct (@bisect_invariant _ _ (L - p) r (calculateEqualPayment L r n)
                (payment_test_monotone (calculateEqualPayment L r n) HP Hpos)
                1000 1 1000 1000)
      as [_ Hcases];
      try lia; try (intros m Hm; lia); try (left; split; reflexivity).
    assert (Hn_ok : leb (calculateEqualPayment (L - p) r n)
                        (calculateEqualPayment L r n) = true).
    { to_Q. apply Qle_bool_iff.
      rewrite (calculateEqualPayment_scale (L - p)), (calculateEqualPayment_scale L).
      apply Qmult_le_compat_r; [lra|].
      apply Qlt_le_weak. apply calculateEqualPayment_pos; [reflexivity | exact Hr | exact Hn]. }
    destruct Hcases as [[Hok _] | [_ Hnone]].
    + to_Q. now apply Qle_bool_iff.
    + rewrite Hnone in Hn_ok by lia. discriminate Hn_ok.
Qed.

(** X18. In exact arithmetic, for an input that satisfies the caller
    preconditions (with an integer [remainingPeriods >= 1]) with the strategy
    [reduce_period] (and, under [equal_principal_interest], an original term
    within the search range of 1000 periods), the first payment of the
    returned schedule never exceeds the [newMonthlyPayment] the result
    reports: the regenerated schedule asks no more than the payment held. *)
Theorem reduce_period_schedule_within_payment (input : MortgageInput Q) :
  callerPreconditions input ->
  prepaymentType input = reduce_period ->
  (repaymentMethod input = equal_principal_interest ->
   (remainingPeriods input <= 1000)%Z) ->
  exists res first rest,
    calculateMortgage input = Some res
    /\ schedule res = first :: rest
    /\ payment first <= newMonthlyPayment res.
Proof.
  intros Hvalid Htype Hcap.
  destruct (@accepted_result_shape input Hvalid)
    as (res & t & Hres & Ht & _ & _ & Hsched & _ & _ & _ & Horig & Hbranch).
  destruct Hvalid as (HL & Hn & Hrate & Hp & HpL).
  pose proof (getMonthlyRate_nonneg Hrate) as Hr.
  assert (HP : 0 < totalLoan input - prepaymentAmount input) by lra.
  rewrite Htype in Hbranch. destruct Hbranch as [Hterm Hnew].
  destruct (generateSchedule_first (repaymentMethod input)
              (totalLoan input - prepaymentAmount input)
              (getMonthlyRate (annualRate input)) (proj1 Ht))
    as (first & rest & Heq & Hpay).
  exists res, first, rest. split; [exact Hres|].
  split; [now rewrite Hsched|].
  rewrite Hnew, Horig, Hpay.
  destruct (repaymentMethod input) eqn:Hmethod; cbn [firstPayment] in *.
  - rewrite Hterm. apply calculateNewPeriods_affordable; try assumption.
    split; [exact Hn | now apply Hcap].
  - to_Q.
    destruct (ceiling_quotient HP (principal_share_pos HL Hn)) as (_ & Hcover & _).
    rewrite <- Hterm in Hcover.
    assert (Hshare : (totalLoan input - prepaymentAmount input) / inject_Z t
                     <= totalLoan input / inject_Z (remainingPeriods input)).
    { apply Qle_shift_div_r; [apply periods_pos; lia|].
      rewrite Qmult_comm. exact Hcover. }
    assert ((totalLoan input - prepaymentAmount input)
            * getMonthlyRate (annualRate input)
            <= totalLoan input * getMonthlyRate (annualRate input))
      by (apply Qmult_le_compat_r; lra).
    lra.
Qed.

End ExactHeldPayment.

(** ** The form's handlers together *)

(** X19. In any arithmetic where [0 <= 0] holds: whatever the state,
    after [handleClearForm] no result is displayed, and [handleCalculate] on
    the cleared form only alerts that the values are invalid and leaves the
    state cleared. *)
Theorem clear_then_calculate (num : Type) (N : Number num) (st : HomeState num) :
  leb (of_Z 0) (of_Z 0) = true ->
  resultDisplayed (handleClearForm st) = None
  /\ handleCalculate (handleClearForm st)
     = Some (handleClearForm st, Some invalidValues).
Proof.
  intros Hzero. split; [reflexivity|].
  unfold handleCalculate, handleClearForm. cbn. now rewrite Hzero.
Qed.

Lemma clear_then_calculate_witness :
  resultDisplayed
    (handleClearForm (num := Q)
       {| formData := {| totalLoan := 1200%Q; remainingPeriods := 12;
                         annualRate := 12%Q; prepaymentAmount := 600%Q;
                         repaymentMethod := equal_principal;
                         prepaymentType := reduce_period |};
          result := None; hasCalculated := true |}) = None
  /\ handleCalculate
       (handleClearForm (num := Q)
          {| formData := {| totalLoan := 1200%Q; remainingPeriods := 12;
                            annualRate := 12%Q; prepaymentAmount := 600%Q;
                            repaymentMethod := equal_principal;
                            prepaymentType := reduce_period |};
             result := None; hasCalculated := true |})
     = Some (handleClearForm (num := Q)
               {| formData := {| totalLoan := 1200%Q; remainingPeriods := 12;
                                 annualRate := 12%Q; prepaymentAmount := 600%Q;
                                 repaymentMethod := equal_principal;
                                 prepaymentType := reduce_period |};
                  result := None; hasCalculated := true |},
             Some invalidValues).
Proof.
  apply (@clear_then_calculate Q exact). reflexivity.
Defined.

(** ** In exact arithmetic: the recorded balance in closed form *)

Section ExactRecordedBalance.

Local Open Scope Q_scope.

(** X20. In exact arithmetic, for [P > 0] and an integer [n >= 1], the
    balance recorded at period [k + 1] is [P - (k + 1) * (P / n)] in the
    equal-principal schedule (any rate [r >= 0]) and
    [P * ((1+r)^n - (1+r)^(k+1)) / ((1+r)^n - 1)] in the equal-payment
    schedule at a positive rate: the clamp at zero never changes a value. *)
Theorem recorded_balance_closed_form (P r : Q) (n : Z) :
  0 < P -> 0 <= r -> (1 <= n)%Z ->
  (forall k e,
     nth_error (generateEqualPrincipalSchedule P r n) k = Some e ->
     balance e == P - inject_Z (Z.of_nat (S k)) * (P / inject_Z n))
  /\ (0 < r ->
      forall k e,
        nth_error (generateEqualPaymentSchedule P r n) k = Some e ->
        balance e == P * ((1 + r) ^ n - (1 + r) ^ Z.of_nat (S k)) / ((1 + r) ^ n - 1)).
Proof.
  intros HP Hr Hn. split.
  - intros k e Hk. rewrite generateEqualPrincipalSchedule_unrolled in Hk.
    cbv zeta in Hk. to_Q. apply unrolled_nth_inv in Hk as [Hlt ->].
    cbn [balance equalPrincipalEntry]. to_Q. rewrite <- Nat.iter_succ.
    pose proof (amortises_le (k := S k) (equalPrincipal_amortises HP Hn) Hlt) as Hpos.
    cbv beta in Hpos. rewrite (Q.max_r _ _ Hpos). apply equalPrincipal_balance.
  - intros Hrate k e Hk. rewrite generateEqualPaymentSchedule_unrolled in Hk.
    cbv zeta in Hk. apply unrolled_nth_inv in Hk as [Hlt ->].
    cbn [balance equalPaymentEntry]. to_Q. rewrite <- Nat.iter_succ.
    pose proof (amortises_le (k := S k) (equalPayment_amortises HP Hn Hr) Hlt) as Hpos.
    cbv beta in Hpos. rewrite (Q.max_r _ _ Hpos).
    pose proof (annuity_balance P Hn (S k) Hrate) as Hbal.
    pose proof (annuity_excess P Hn Hrate) as Hexc.
    pose proof (annuity_denominator_pos Hn Hrate) as HD.
    set (b := Nat.iter (S k) _ P) in *.
    set (c := calculateEqualPayment P r n - P * r) in *.
    set (Qn := (1 + r) ^ n) in *. set (Qk := (1 + r) ^ Z.of_nat (S k)) in *.
    assert (Hprod : b * (r * (Qn - 1)) == (P * (Qn - Qk)) * r).
    { transitivity ((b * r) * (Qn - 1)); [ring|]. rewrite Hbal.
      transitivity ((c * (Qn - 1)) * (Qn - Qk)); [ring|]. rewrite Hexc. ring. }
    assert (Hcancel : b * (Qn - 1) == P * (Qn - Qk)).
    { apply (Qmult_inj_r _ _ r); [lra|].
      transitivity (b * (r * (Qn - 1))); [ring | exact Hprod]. }
    rewrite <- Hcancel. field. lra.
Qed.

End ExactRecordedBalance.

(** ** The statements above at concrete inputs *)

Lemma equal_principal_total_interest_witness :
  (calculateTotalInterest (generateEqualPrincipalSchedule 1200 (1 # 100) 12)
   == 1200 * (1 # 100) * (inject_Z 12 + 1) / 2)%Q.
Proof.
  apply (@equal_principal_total_interest 1200%Q (1 # 100)%Q 12);
    [reflexivity | discriminate | lia].
Defined.

Lemma equal_payment_total_interest_witness :
  (calculateTotalInterest (generateEqualPaymentSchedule 1200 (1 # 100) 12)
   == inject_Z 12 * calculateEqualPayment 1200 (1 # 100) 12 - 1200)%Q.
Proof.
  apply (@equal_payment_total_interest 1200%Q (1 # 100)%Q 12);
    [reflexivity | discriminate | lia].
Defined.

Lemma payments_are_principal_plus_interest_witness :
  (totalPayment (generateSchedule equal_principal_interest 1200 (1 # 100) 12)
   == 1200 + calculateTotalInterest
               (generateSchedule equal_principal_interest 1200 (1 # 100) 12))%Q.
Proof.
  apply (@payments_are_principal_plus_interest equal_principal_interest
           1200%Q (1 # 100)%Q 12);
    [reflexivity | discriminate | lia].
Defined.

Lemma total_interest_sign_witness :
  ((1 # 100 == 0)%Q ->
   (calculateTotalInterest (generateSchedule equal_principal 1200 (1 # 100) 12) == 0)%Q)
  /\ ((0 < 1 # 100)%Q ->
      (0 < calculateTotalInterest (generateSchedule equal_principal 1200 (1 # 100) 12))%Q).
Proof.
  apply (@total_interest_sign equal_principal 1200%Q (1 # 100)%Q 12);
    [reflexivity | discriminate | lia].
Defined.

Lemma calculateEqualPayment_bounds_witness :
  (1200 * (1 # 100) < calculateEqualPayment 1200 (1 # 100) 12)%Q
  /\ (1200 / inject_Z 12 < calculateEqualPayment 1200 (1 # 100) 12)%Q
  /\ (calculateEqualPayment 1200 (1 # 100) 12 <= 1200 * (1 + (1 # 100)))%Q.
Proof.
  apply (@calculateEqualPayment_bounds 1200%Q (1 # 100)%Q 12);
    [reflexivity | reflexivity | lia].
Defined.

Lemma calculateEqualPayment_strictly_decreasing_witness :
  (calculateEqualPayment 1200 (1 # 100) 24 < calculateEqualPayment 1200 (1 # 100) 12)%Q.
Proof.
  apply (@calculateEqualPayment_strictly_decreasing 1200%Q (1 # 100)%Q 12 24);
    [reflexivity | reflexivity | lia].
Defined.

Lemma calculateEqualPayment_proportional_witness :
  (calculateEqualPayment (2 * 600) (1 # 100) 12
   == 2 * calculateEqualPayment 600 (1 # 100) 12)%Q.
Proof.
  apply (@calculateEqualPayment_proportional 2%Q 600%Q (1 # 100)%Q 12);
    [discriminate | lia].
Defined.

Lemma equal_payment_components_monotone_witness :
  nonIncreasing interest (generateEqualPaymentSchedule 1200 (1 # 100) 12)
  /\ nonDecreasing principal (generateEqualPaymentSchedule 1200 (1 # 100) 12)
  /\ ((0 < 1 # 100)%Q ->
      strictlyDecreasing interest (generateEqualPaymentSchedule 1200 (1 # 100) 12)
      /\ strictlyIncreasing principal (generateEqualPaymentSchedule 1200 (1 # 100) 12)).
Proof.
  apply (@equal_payment_components_monotone 1200%Q (1 # 100)%Q 12);
    [reflexivity | discriminate | lia].
Defined.

Lemma accepted_form_gets_schedule_witness :
  exists res,
    calculateMortgage (sampleForm equal_principal reduce_period) = Some res
    /\ (1 <= newRemainingPeriods res)%Z
    /\ schedule res <> []
    /\ paidOffNoticeShown res = false
    /\ (periodChangeShown (sampleForm equal_principal reduce_period) res = true
        <-> reduce_period = reduce_period /\ (newRemainingPeriods res < 12)%Z).
Proof.
  apply (@accepted_form_gets_schedule (sampleForm equal_principal reduce_period)).
  sample_preconditions.
Defined.

Lemma prepayment_saves_interest_witness :
  exists res,
    calculateMortgage (sampleForm equal_principal_interest reduce_period) = Some res
    /\ (0 <= totalInterestNew res <= totalInterestOriginal res)%Q
    /\ (0 <= interestSavings res)%Q
    /\ ((12 == 0)%Q -> (interestSavings res == 0)%Q)
    /\ ((0 < 12)%Q -> (0 < interestSavings res)%Q).
Proof.
  apply (@prepayment_saves_interest (sampleForm equal_principal_interest reduce_period));
    [sample_preconditions | reflexivity].
Defined.

Lemma savings_ratio_is_a_percentage_witness :
  exists res,
    calculateMortgage (sampleForm equal_principal_interest reduce_payment) = Some res
    /\ (0 < totalInterestOriginal res)%Q
    /\ (0 < savingsRatio res <= 100)%Q.
Proof.
  apply (@savings_ratio_is_a_percentage
           (sampleForm equal_principal_interest reduce_payment));
    [sample_preconditions | reflexivity | reflexivity].
Defined.

Lemma reduce_period_schedule_within_payment_witness :
  exists res first rest,
    calculateMortgage (sampleForm equal_principal_interest reduce_period) = Some res
    /\ schedule res = first :: rest
    /\ (payment first <= newMonthlyPayment res)%Q.
Proof.
  apply (@reduce_period_schedule_within_payment
           (sampleForm equal_principal_interest reduce_period));
    [sample_preconditions | reflexivity | intros _; cbn; lia].
Defined.

Lemma recorded_balance_closed_form_witness :
  (forall k e,
     nth_error (generateEqualPrincipalSchedule 1200 (1 # 100) 12) k = Some e ->
     (balance e == 1200 - inject_Z (Z.of_nat (S k)) * (1200 / inject_Z 12))%Q)
  /\ ((0 < 1 # 100)%Q ->
      forall k e,
        nth_error (generateEqualPaymentSchedule 1200 (1 # 100) 12) k = Some e ->
        (balance e
         == 1200 * ((1 + (1 # 100)) ^ 12 - (1 + (1 # 100)) ^ Z.of_nat (S k))
            / ((1 + (1 # 100)) ^ 12 - 1))%Q).
Proof.
  apply (@recorded_balance_closed_form 1200%Q (1 # 100)%Q 12);
    [reflexivity | discriminate | lia].
Defined.

(** ** The payment reduction the panel shows *)

(** X21. In exact arithmetic, for an input that satisfies the caller
    preconditions (with an integer [remainingPeriods >= 1]), the amount the
    panel shows as payment reduction,
    [originalMonthlyPayment - newMonthlyPayment], is never negative: it is
    zero under [reduce_period], whatever the returned schedule asks, and
    positive under [reduce_payment] when the prepayment is positive. *)
Theorem payment_reduction_sign (input : MortgageInput Q) :
  callerPreconditions input ->
  exists res,
    calculateMortgage input = Some res
    /\ (0 <= paymentReduction res)%Q
    /\ (prepaymentType input = reduce_period -> (paymentReduction res == 0)%Q)
    /\ (prepaymentType input = reduce_payment ->
        (0 < prepaymentAmount input)%Q -> (0 < paymentReduction res)%Q).
Proof.
  intros Hvalid.
  destruct (@accepted_result_shape input Hvalid)
    as (res & t & Hres & _ & _ & _ & _ & _ & _ & _ & Horig & Hbranch).
  destruct Hvalid as (HL & Hn & Hrate & Hp & HpL).
  pose proof (getMonthlyRate_nonneg Hrate) as Hr.
  exists res. split; [exact Hres|]. unfold paymentReduction. to_Q.
  destruct (prepaymentType input).
  - destruct Hbranch as [-> ->]. rewrite Horig.
    assert (Hstrict : (0 < prepaymentAmount input)%Q ->
                      (firstPayment (repaymentMethod input)
                                    (totalLoan input - prepaymentAmount input)
                                    (getMonthlyRate (annualRate input))
                                    (remainingPeriods input)
                       < firstPayment (repaymentMethod input) (totalLoan input)
                                      (getMonthlyRate (annualRate input))
                                      (remainingPeriods input))%Q).
    { intros Hpos. apply firstPayment_increasing; [exact Hr | exact Hn | lra]. }
    split; [|split; [discriminate|]].
    + destruct (Qle_lt_or_eq _ _ Hp) as [Hpos|Hzero].
      * specialize (Hstrict Hpos). lra.
      * assert (Hsame : (totalLoan input - prepaymentAmount input == totalLoan input)%Q)
          by (rewrite <- Hzero; ring).
        destruct (repaymentMethod input); cbn [firstPayment]; to_Q.
        -- rewrite (calculateEqualPayment_scale (totalLoan input - prepaymentAmount input)),
             (calculateEqualPayment_scale (totalLoan input)), Hsame. lra.
        -- rewrite Hsame. lra.
    + intros _ Hpos. specialize (Hstrict Hpos). lra.
  - destruct Hbranch as [_ ->].
    split; [lra|]. split; [intros _; ring | discriminate].
Qed.

Lemma payment_reduction_sign_witness :
  exists res,
    calculateMortgage (sampleForm equal_principal reduce_payment) = Some res
    /\ (0 <= paymentReduction res)%Q
    /\ (reduce_payment = reduce_period -> (paymentReduction res == 0)%Q)
    /\ (reduce_payment = reduce_payment ->
        (0 < 600)%Q -> (0 < paymentReduction res)%Q).
Proof.
  apply (@payment_reduction_sign (sampleForm equal_principal reduce_payment)).
  sample_preconditions.
Defined.
